(** * rx-scheduler.hpp: actions, schedulables, workers and the time-ordered queue

    A shallow embedding of [Rx/v2/src/rxcpp/rx-scheduler.hpp].  Time points
    and durations are integers ([Z]), pointers are identities ([nat]), the
    bool cells shared by reference between [recursion], [recurse] and
    [recursed] live in an explicit store, and [abort()] and C++ exceptions
    are outcomes of the effectful operations.  64-bit counters and time
    values wrap around.  The destructor of [schedulable]
    ([schedulable_destroy]) is run for the copies, temporaries and locals on
    the scheduling paths: [make_schedulable(scbl, worker)],
    [schedule_rebind], [worker::schedule] with a function and the periodic
    schedule; what a strategy does with the copies it keeps is outside
    this file. *)

From stdpp Require Import base decidable option list sorting gmap.
From Stdlib Require Import ZArith Lia.

Local Open Scope Z_scope.

(** ** 64-bit signed integers *)

Module Int64.

Definition int64_min : Z := - 2 ^ 63.
Definition int64_max : Z := 2 ^ 63 - 1.

(** The value a 64-bit signed result holds: two's complement wrap-around. *)
Definition wrap64 (z : Z) : Z := (z + 2 ^ 63) mod 2 ^ 64 - 2 ^ 63.

Definition in_range (z : Z) : Prop := int64_min ≤ z ≤ int64_max.

End Int64.

(** ** detail::schedulable_queue *)

Module Queue.
Export Int64.
Section queue.

(** The payload ([schedulable what]) is never inspected by the queue. *)
Context {A : Type}.

(** [detail::time_schedulable<TimePoint>] *)
Record time_schedulable := mk_item { when : Z; what : A }.

(** [elem_type = std::pair<item_type, int64_t>] *)
Definition elem_type : Type := time_schedulable * Z.

(** [compare_elem::operator()] *)
Definition compare_elem (lhs rhs : elem_type) : bool :=
  if when lhs.1 =? when rhs.1 then lhs.2 >? rhs.2
  else when lhs.1 >? when rhs.1.

(** [std::priority_queue<elem_type, std::vector, compare_elem>] keeps its
    elements in an order of its own, a heap over the vector, which the
    standard leaves to the implementation.  [arrange] is that order: the
    vector after an operation is [arrange] of the elements it then holds.
    What the standard fixes is that [top()] is an element that
    [compare_elem] puts before no other element, that [pop()] removes
    this element and that [push] adds one; among elements that
    [compare_elem] does not tell apart, which one is the top depends on
    [arrange]. *)
Context (arrange : list elem_type → list elem_type).

Definition pq_best (c : elem_type) (l : list elem_type) : elem_type :=
  foldl (fun best x => if compare_elem best x then x else best) c l.

Definition pq_top (l : list elem_type) : option elem_type :=
  match l with
  | [] => None
  | c :: l' => Some (pq_best c l')
  end.

Fixpoint pq_remove (m : elem_type) (l : list elem_type) : list elem_type :=
  match l with
  | [] => []
  | x :: l' =>
      if (when x.1 =? when m.1) && (x.2 =? m.2) then l'
      else x :: pq_remove m l'
  end.

Definition pq_pop (l : list elem_type) : option (list elem_type) :=
  match pq_top l with
  | None => None
  | Some m => Some (arrange (pq_remove m l))
  end.

Definition pq_push (l : list elem_type) (e : elem_type) : list elem_type :=
  arrange (l ++ [e]).

(** [schedulable_queue]: the priority queue and the [int64_t ordinal].
    The class has no constructor, so a queue starts with whatever value
    its [ordinal] happens to hold. *)
Record schedulable_queue := mk_queue {
  queue : list elem_type;
  ordinal : Z
}.

(** [top()]: undefined on an empty queue ([None]). *)
Definition top (q : schedulable_queue) : option time_schedulable :=
  fst <$> pq_top (queue q).

(** [pop()]: undefined on an empty queue ([None]). *)
Definition pop (q : schedulable_queue) : option schedulable_queue :=
  l ← pq_pop (queue q); Some (mk_queue l (ordinal q)).

(** [empty()] *)
Definition empty (q : schedulable_queue) : bool :=
  match queue q with [] => true | _ => false end.

(** [push(value)]: [queue.push(elem_type(value, ordinal++))]; the
    64-bit counter wraps around at its largest value. *)
Definition push (q : schedulable_queue) (value : time_schedulable)
  : schedulable_queue :=
  mk_queue (pq_push (queue q) (value, ordinal q)) (wrap64 (ordinal q + 1)).

Definition push_all (q : schedulable_queue) (items : list time_schedulable)
  : schedulable_queue :=
  foldl push q items.

(** The consumer loop of every strategy:
    [while (!q.empty()) { x = q.top(); q.pop(); ... }]. *)
Fixpoint drain_n (n : nat) (q : schedulable_queue) : list time_schedulable :=
  match n with
  | O => []
  | S k =>
      if empty q then []
      else match top q, pop q with
           | Some x, Some q' => x :: drain_n k q'
           | _, _ => []
           end
  end.

Definition drain (q : schedulable_queue) : list time_schedulable :=
  drain_n (length (queue q)) q.

End queue.
Arguments time_schedulable : clear implicits.
Arguments elem_type : clear implicits.
Arguments schedulable_queue : clear implicits.
End Queue.

(** ** Subscriptions, recursion contexts, actions, schedulables, workers *)

Module Sched.
Export Int64.

(** [time_point + duration] and [time_point += duration] of
    [std::chrono::steady_clock], whose representation is a 64-bit signed
    count. *)
Definition time_add (t d : Z) : Z := wrap64 (t + d).

(** *** composite_subscription *)

(** A [composite_subscription] is a handle on shared state: its identity. *)
Definition composite_subscription : Type := nat.

(** [composite_subscription::weak_subscription]: the registration token,
    [None] for an empty one. *)
Definition weak_subscription : Type := option nat.

(** The state of all subscriptions: which are unsubscribed, and which
    child is registered in which parent under which token. *)
Record subscriptions := mk_subscriptions {
  revoked : gset nat;
  registered : list (nat * nat * nat);
  next_token : nat
}.

Definition children (regs : list (nat * nat * nat)) (front : list nat) : list nat :=
  (fun r => r.2) <$> filter (fun r => r.1.2 ∈ front) regs.

Fixpoint reach (depth : nat) (regs : list (nat * nat * nat)) (front : list nat)
  : list nat :=
  match depth with
  | O => front
  | S k => front ++ reach k regs (children regs front)
  end.

(** Modelled from the spec: the cancellable scope of rx-subscription.hpp,
    which is not in this file.  [is_subscribed] is "is active";
    [unsubscribe] is "revoke all": the scope becomes inactive for good and
    so does every scope registered in it, transitively; [add] registers a
    child, and registering in an inactive scope revokes the child at once;
    [remove] drops one registration. *)
Definition sub_is_subscribed (st : subscriptions) (s : composite_subscription) : bool :=
  bool_decide (s ∉ revoked st).

Definition sub_unsubscribe (st : subscriptions) (s : composite_subscription)
  : subscriptions :=
  let dead := reach (length (registered st)) (registered st) [s] in
  mk_subscriptions (list_to_set dead ∪ revoked st)
                   (filter (fun r => r.1.2 ∉ dead) (registered st))
                   (next_token st).

Definition sub_add (st : subscriptions) (parent child : composite_subscription)
  : subscriptions * weak_subscription :=
  if sub_is_subscribed st parent
  then (mk_subscriptions (revoked st)
                         ((next_token st, parent, child) :: registered st)
                         (S (next_token st)),
        Some (next_token st))
  else (sub_unsubscribe st child, None).

Definition sub_remove (st : subscriptions) (t : weak_subscription) : subscriptions :=
  match t with
  | None => st
  | Some k => mk_subscriptions (revoked st)
                (filter (fun r => r.1.1 ≠ k) (registered st)) (next_token st)
  end.

(** *** recursed, recurse, recursion *)

(** [recursed]: holds [bool& isrequested]. *)
Record recursed := mk_recursed { isrequested_ref : nat }.

(** [recurse]: [bool& isallowed], its own [mutable bool isrequested] (the
    address of that member) and the [requestor] bound to it. *)
Record recurse := mk_recurse {
  isallowed : nat;
  isrequested : nat;
  requestor : recursed
}.

(** [recursion]: its own [mutable bool isallowed] and the [recursor]. *)
Record recursion := mk_recursion {
  recursion_isallowed : nat;
  recursor : recurse
}.

(** *** worker, action, schedulable *)

(** [worker]: [inner] is a [shared_ptr<worker_interface>], [None] when null. *)
Record worker := mk_worker {
  worker_inner : option nat;
  worker_lifetime : composite_subscription
}.

(** [operator==(const worker&, const worker&)] *)
Definition worker_eq (lhs rhs : worker) : bool :=
  bool_decide (worker_inner lhs = worker_inner rhs) &&
  bool_decide (worker_lifetime lhs = worker_lifetime rhs).

(** [action]: [inner] is a [shared_ptr<detail::action_type>]. *)
Record action := mk_action { action_inner : option nat }.

(** [action()]: a null [inner]. *)
Definition action_default : action := mk_action None.

(** [action::shared_empty]: the one statically allocated [action_type]. *)
Definition shared_empty : nat := 0%nat.

(** [action::empty()] *)
Definition action_empty : action := mk_action (Some shared_empty).

(** [make_action_empty()] *)
Definition make_action_empty : action := action_empty.

(** [schedulable]; [recursed_scope] is the [requestor] pointer of
    [recursed_scope_type], [None] when null. *)
Record schedulable := mk_schedulable {
  lifetime : composite_subscription;
  controller : worker;
  activity : action;
  scoped : bool;
  action_scope : weak_subscription;
  recursed_scope : option recursed
}.

(** The implicit copy constructor: member-wise, and
    [recursed_scope_type(const recursed_scope_type&)] does not acquire the
    recursion scope. *)
Definition schedulable_copy (s : schedulable) : schedulable :=
  mk_schedulable (lifetime s) (controller s) (activity s) (scoped s)
                 (action_scope s) None.

(** The implicit copy assignment [target = o]: member-wise, and
    [recursed_scope_type::operator=] changes nothing. *)
Definition schedulable_assign (target o : schedulable) : schedulable :=
  mk_schedulable (lifetime o) (controller o) (activity o) (scoped o)
                 (action_scope o) (recursed_scope target).

(** [recursed_scope_type::is_recursed] through [schedulable::is_recursed]. *)
Definition is_recursed (s : schedulable) : bool :=
  match recursed_scope s with Some _ => true | None => false end.

(** [get_subscription], [get_worker], [get_action] *)
Definition get_subscription (s : schedulable) : composite_subscription := lifetime s.
Definition get_worker (s : schedulable) : worker := controller s.
Definition get_action (s : schedulable) : action := activity s.

(** A call of one of the two primitives of [worker_interface]:
    [schedule(scbl)] ([None]) or [schedule(when, scbl)]. *)
Record submission := mk_submission {
  sub_inner : nat;
  sub_when : option Z;
  sub_what : schedulable
}.

Section operations.

(** The state captured by the functions of the client. *)
Context {U : Type}.

(** Everything the code of this file reads or writes: the subscriptions,
    the bool objects shared by reference ([flags], by address), the shared
    [time_point] targets of periodic schedules ([times]), the clock behind
    [worker_interface::now()], the calls of the primitives of the strategy
    so far ([posted], oldest first), the state of the client and the
    states at which its functions were entered ([calls], oldest first). *)
Record world := mk_world {
  subs : subscriptions;
  flags : list bool;
  times : list Z;
  clock : Z;
  posted : list submission;
  user : U;
  calls : list U
}.

Definition with_subs (w : world) (x : subscriptions) : world :=
  mk_world x (flags w) (times w) (clock w) (posted w) (user w) (calls w).
Definition with_flags (w : world) (x : list bool) : world :=
  mk_world (subs w) x (times w) (clock w) (posted w) (user w) (calls w).
Definition with_times (w : world) (x : list Z) : world :=
  mk_world (subs w) (flags w) x (clock w) (posted w) (user w) (calls w).
Definition with_clock (w : world) (x : Z) : world :=
  mk_world (subs w) (flags w) (times w) x (posted w) (user w) (calls w).
Definition with_posted (w : world) (x : list submission) : world :=
  mk_world (subs w) (flags w) (times w) (clock w) x (user w) (calls w).
Definition with_user (w : world) (x : U) (c : list U) : world :=
  mk_world (subs w) (flags w) (times w) (clock w) (posted w) x c.

(** How a [void] operation ends: it returns, an exception leaves it,
    [abort()] (or a null dereference) ends the process, or the budget of
    the model ran out before it ended. *)
Inductive outcome :=
  | Returned (w : world)
  | Thrown (w : world)
  | Aborted
  | OutOfFuel.

Definition flag (w : world) (a : nat) : bool := default false (flags w !! a).
Definition set_flag (w : world) (a : nat) (b : bool) : world :=
  with_flags w (<[a:=b]> (flags w)).

(** [recursed::operator()]: [isrequested = true]. *)
Definition recursed_call (rq : recursed) (w : world) : world :=
  set_flag w (isrequested_ref rq) true.

(** [recurse::recurse(bool& a)]: [isrequested(true)], [requestor(isrequested)]. *)
Definition new_recurse (a : nat) (w : world) : recurse * world :=
  let c := length (flags w) in
  (mk_recurse a c (mk_recursed c), with_flags w (flags w ++ [true])).

Definition is_allowed (r : recurse) (w : world) : bool := flag w (isallowed r).
Definition is_requested (r : recurse) (w : world) : bool := flag w (isrequested r).
(** [recurse::reset] *)
Definition recurse_reset (r : recurse) (w : world) : world :=
  set_flag w (isrequested r) false.
Definition get_recursed (r : recurse) : recursed := requestor r.

(** [recursion::recursion(bool b)]; [recursion()] is [new_recursion true]. *)
Definition new_recursion (b : bool) (w : world) : recursion * world :=
  let a := length (flags w) in
  let '(r, w') := new_recurse a (with_flags w (flags w ++ [b])) in
  (mk_recursion a r, w').

(** [recursion::reset(bool b)] *)
Definition recursion_reset (rn : recursion) (b : bool) (w : world) : world :=
  set_flag w (recursion_isallowed rn) b.
Definition get_recurse (rn : recursion) : recurse := recursor rn.

(** [schedulable::is_subscribed], [schedulable::unsubscribe] *)
Definition is_subscribed (s : schedulable) (w : world) : bool :=
  sub_is_subscribed (subs w) (lifetime s).
Definition unsubscribe (s : schedulable) (w : world) : world :=
  with_subs w (sub_unsubscribe (subs w) (lifetime s)).

(** [schedulable::set_recursed]: [requestor = addressof(r.get_recursed())];
    the returned guard sets it back to null when the caller's scope ends. *)
Definition set_recursed (s : schedulable) (r : recurse) : schedulable :=
  mk_schedulable (lifetime s) (controller s) (activity s) (scoped s)
                 (action_scope s) (Some (get_recursed r)).

(** [schedulable::operator()()]: calls the [recursed] that [requestor]
    points to, a null dereference when the schedulable holds no recursion
    scope. *)
Definition request_recursion (s : schedulable) (w : world) : outcome :=
  match recursed_scope s with
  | None => Aborted
  | Some rq => Returned (recursed_call rq w)
  end.

(** [schedulable(worker q, action a)]: action and worker share lifetime. *)
Definition schedulable_shared (q : worker) (a : action) : schedulable :=
  mk_schedulable (worker_lifetime q) q a false None None.

(** [schedulable(composite_subscription cs, worker q, action a)] *)
Definition schedulable_scoped (cs : composite_subscription) (q : worker)
    (a : action) (w : world) : schedulable * world :=
  let '(st, t) := sub_add (subs w) (worker_lifetime q) cs in
  (mk_schedulable cs q a true t None, with_subs w st).

(** [schedulable(schedulable scbl, worker q, action a)]: inherit lifetimes. *)
Definition schedulable_inherit (scbl : schedulable) (q : worker) (a : action)
    (w : world) : schedulable * world :=
  if scoped scbl
  then let '(st, t) := sub_add (subs w) (worker_lifetime q) (get_subscription scbl) in
       (mk_schedulable (get_subscription scbl) q a true t None, with_subs w st)
  else (mk_schedulable (get_subscription scbl) q a false None None, w).

(** [~schedulable()]: [controller.remove(action_scope)].  A token names
    one registration, the one the constructor made in the subscription of
    [controller]; all copies of the schedulable hold the same token. *)
Definition schedulable_destroy (s : schedulable) (w : world) : world :=
  if scoped s then with_subs w (sub_remove (subs w) (action_scope s)) else w.

(** The destructor of a local or temporary [s], run when the scope that
    holds it is left, by return or by exception. *)
Definition leaving (s : schedulable) (o : outcome) : outcome :=
  match o with
  | Returned w => Returned (schedulable_destroy s w)
  | Thrown w => Thrown (schedulable_destroy s w)
  | Aborted => Aborted
  | OutOfFuel => OutOfFuel
  end.

(** [make_schedulable(schedulable scbl, worker sc)].  The schedulable is
    passed by value, and by value again to the constructor; both copies
    are destroyed before the result is handed back. *)
Definition make_schedulable (scbl : schedulable) (sc : worker) (w : world)
  : schedulable * world :=
  let by_value := schedulable_copy scbl in
  let ctor_arg := schedulable_copy by_value in
  let '(n, w1) := schedulable_inherit ctor_arg sc (get_action by_value) w in
  (n, schedulable_destroy by_value (schedulable_destroy ctor_arg w1)).

(** [make_schedulable(schedulable scbl, F&& f)], where [p] is the address
    of the [action_type] that [make_action(f)] allocates; the two copies
    as above. *)
Definition make_schedulable_fn (scbl : schedulable) (p : nat) (w : world)
  : schedulable * world :=
  let by_value := schedulable_copy scbl in
  let ctor_arg := schedulable_copy by_value in
  let '(n, w1) := schedulable_inherit ctor_arg (get_worker by_value)
                    (mk_action (Some p)) w in
  (n, schedulable_destroy by_value (schedulable_destroy ctor_arg w1)).

(** Modelled from the spec: the two primitives of [worker_interface], whose
    implementations are the strategies outside this file: "scheduling
    always means enqueue and return".  The call is recorded in [posted]. *)
Definition inner_schedule (q : worker) (when : option Z) (scbl : schedulable)
    (w : world) : outcome :=
  match worker_inner q with
  | None => Aborted
  | Some i => Returned (with_posted w (posted w ++ [mk_submission i when scbl]))
  end.

(** [worker::schedule_rebind(scbl)] and [schedule_rebind(when, scbl)]:
    the schedulable made is a temporary, destroyed when the primitive has
    returned. *)
Definition schedule_rebind (q : worker) (when : option Z) (scbl : schedulable)
    (w : world) : outcome :=
  let '(n, w') := make_schedulable scbl q w in
  leaving n (inner_schedule q when n w').

(** [worker::schedule(const schedulable&)] *)
Definition worker_schedule (q : worker) (scbl : schedulable) (w : world) : outcome :=
  schedule_rebind q None scbl w.
(** [worker::schedule(time_point when, const schedulable&)] *)
Definition worker_schedule_at (q : worker) (when : Z) (scbl : schedulable)
    (w : world) : outcome :=
  schedule_rebind q (Some when) scbl w.
(** [worker::schedule(duration when, const schedulable&)] *)
Definition worker_schedule_after (q : worker) (delay : Z) (scbl : schedulable)
    (w : world) : outcome :=
  match worker_inner q with
  | None => Aborted
  | Some _ => schedule_rebind q (Some (time_add (clock w) delay)) scbl w
  end.

(** [schedulable::schedule()], [schedule(time_point)], [schedule(duration)] *)
Definition schedule (s : schedulable) (w : world) : outcome :=
  if is_subscribed s w then worker_schedule (controller s) s w else Returned w.
Definition schedule_at (s : schedulable) (when : Z) (w : world) : outcome :=
  if is_subscribed s w then worker_schedule_at (controller s) when s w else Returned w.
Definition schedule_after (s : schedulable) (delay : Z) (w : world) : outcome :=
  if is_subscribed s w then worker_schedule_after (controller s) delay s w
  else Returned w.

End operations.
Arguments world : clear implicits.
Arguments outcome : clear implicits.

Section actions.
Context {U : Type}.
Local Abbreviation world := (world U).
Local Abbreviation outcome := (outcome U).

(** What a function stored in an action may call back into:
    [schedulable::operator()(const recurse&)] of a captured schedulable. *)
Definition invoker : Type := schedulable → recurse → world → outcome.

(** [detail::action_type::function_type], that is
    [std::function<void(const schedulable&, const recurse&)>]; the model
    passes the invoker and the budget for loops along. *)
Definition function_type : Type :=
  invoker → nat → schedulable → recurse → world → outcome.

(** [detail::action_type]: [f] is [None] for an empty [std::function]. *)
Record action_type := mk_action_type { f : option function_type }.

(** [action_type()] *)
Definition action_type_default : action_type := mk_action_type None.

(** [detail::action_type::operator()] *)
Definition action_type_call (t : action_type) : function_type :=
  fun invoke n s r w =>
    match f t with
    | None => Aborted
    | Some g => g invoke n s r w
    end.

(** The [action_type] objects by address: [shared_empty] is the static
    one, the others are those allocated by [make_shared]. *)
Definition deref (heap : list action_type) (p : nat) : option action_type :=
  match p with
  | O => Some action_type_default
  | S i => heap !! i
  end.

(** [action::operator()]: calls the [action_type] that [inner] points
    to; a null [inner] is a null dereference. *)
Definition action_call (heap : list action_type) (a : action) : function_type :=
  fun invoke n s r w =>
    match action_inner a with
    | None => Aborted
    | Some p =>
        match deref heap p with
        | None => Aborted
        | Some t => action_type_call t invoke n s r w
        end
    end.

(** [schedulable::operator()(const recurse& r)].  The [detacher] calls
    [unsubscribe()] in its destructor unless [protect.that] was cleared,
    which happens only when [activity] returned. *)
Fixpoint schedulable_invoke (heap : list action_type) (fuel : nat)
    (s : schedulable) (r : recurse) (w : world) : outcome :=
  match fuel with
  | O => OutOfFuel
  | S k =>
      if negb (is_subscribed s w) then Aborted
      else match action_call heap (activity s) (schedulable_invoke heap k) k s r w with
           | Thrown w' => Thrown (unsubscribe s w')
           | o => o
           end
  end.

(** The [while] loop of the lambda of [make_action]. *)
Fixpoint action_loop (fn : schedulable → world → outcome) (n : nat)
    (s : schedulable) (r : recurse) (w : world) : outcome :=
  match n with
  | O => OutOfFuel
  | S k =>
      if is_subscribed s w then
        match fn s (recurse_reset r w) with
        | Returned w' =>
            if negb (is_allowed r w') || negb (is_requested r w') then
              if is_requested r w' then schedule s w' else Returned w'
            else action_loop fn k s r w'
        | o => o
        end
      else Returned w
  end.

(** [make_action(f)]: the [action_type] holding the lambda.  [s] is a
    reference to the invoked schedulable, whose recursion scope is set
    for the duration of the call. *)
Definition make_action (fn : invoker → schedulable → world → outcome) : action_type :=
  mk_action_type
    (Some (fun invoke n s r w => action_loop (fn invoke) n (set_recursed s r) r w)).

(** What a function of the client does with the schedulable it is handed. *)
Inductive user_request :=
  | Recurse          (* s() *)
  | Unsubscribe      (* s.unsubscribe() *)
  | Elapse (d : Z)   (* takes d units of time *)
  | Throw.           (* throws an exception *)

Definition user_step (s : schedulable) (q : user_request) (w : world) : outcome :=
  match q with
  | Recurse => request_recursion s w
  | Unsubscribe => Returned (unsubscribe s w)
  | Elapse d => Returned (with_clock w (clock w + d))
  | Throw => Thrown w
  end.

Fixpoint user_steps (s : schedulable) (qs : list user_request) (w : world) : outcome :=
  match qs with
  | [] => Returned w
  | q :: rest =>
      match user_step s q w with
      | Returned w' => user_steps s rest w'
      | o => o
      end
  end.

(** A function of the client taking [const schedulable&]: it is entered
    in state [user w], leaves the new state and performs its requests. *)
Definition user_function (uf : U → U * list user_request)
  : invoker → schedulable → world → outcome :=
  fun _ s w =>
    let '(u', qs) := uf (user w) in
    user_steps s qs (with_user w u' (calls w ++ [user w])).

(** The lambda of [worker::schedule_periodically_rebind]; it takes
    [schedulable self] by value, a copy that is destroyed when the call
    is over. *)
Definition periodic_function (target : nat) (period : Z) (activity : schedulable)
  : invoker → schedulable → world → outcome :=
  fun invoke s w =>
    let self := schedulable_copy s in
    leaving self
      (let '(r, w1) := new_recursion false w in
       match invoke activity (get_recurse r) w1 with
       | Returned w2 =>
           let t := time_add (default 0 (times w2 !! target)) period in
           schedule_at self t (with_times w2 (<[target:=t]> (times w2)))
       | o => o
       end).

(** [worker::schedule_periodically_rebind(initial, period, scbl)], where
    [p] is the address of the [action_type] made for the lambda. *)
Definition periodic_target (w : world) : nat := length (times w).

Definition periodic_activity (q : worker) (scbl : schedulable) (initial : Z)
    (w : world) : schedulable * world :=
  make_schedulable scbl q (with_times w (times w ++ [initial])).

Definition schedule_periodically_rebind (q : worker) (initial period : Z)
    (scbl : schedulable) (p : nat) (w : world) : outcome :=
  let target := periodic_target w in
  let '(activity, w2) := periodic_activity q scbl initial w in
  let '(periodic, w3) := make_schedulable_fn activity p w2 in
  (* the closure objects that held a copy of [activity] on the way into
     the action *)
  let w4 := schedulable_destroy (schedulable_copy activity) w3 in
  (* the locals [periodic] and [activity] *)
  leaving activity
    (leaving periodic
       (inner_schedule q (Some (default 0 (times w4 !! target))) periodic w4)).

(** [worker::schedule_periodically(time_point, duration, const schedulable&)] *)
Definition schedule_periodically (q : worker) (initial period : Z)
    (scbl : schedulable) (p : nat) (w : world) : outcome :=
  schedule_periodically_rebind q initial period scbl p w.

(** Modelled from the spec: a strategy, which is outside this file.  When
    an entry of its queue is due it builds a recursion context with its
    [allowed] and invokes the schedulable, skipping one whose scope is no
    longer active.  [dispatch] runs one entry, [run_loop] the entries from
    [cursor] on in the order they were posted. *)
Definition dispatch (heap : list action_type) (fuel : nat) (allowed : bool)
    (scbl : schedulable) (w : world) : outcome :=
  if is_subscribed scbl w then
    let '(rn, w1) := new_recursion allowed w in
    schedulable_invoke heap fuel scbl (get_recurse rn) w1
  else Returned w.

Fixpoint run_loop (heap : list action_type) (fuel : nat) (allowed : bool)
    (cursor : nat) (w : world) : outcome :=
  match fuel with
  | O => OutOfFuel
  | S k =>
      match posted w !! cursor with
      | None => Returned w
      | Some e =>
          match dispatch heap k allowed (sub_what e) w with
          | Returned w' => run_loop heap k allowed (S cursor) w'
          | o => o
          end
      end
  end.

(** The entries posted with a deadline, and all deadlines posted so far. *)
Definition timed (l : list submission) : list submission :=
  filter (fun e => is_Some (sub_when e)) l.

Definition deadlines (l : list submission) : list Z := omap sub_when l.

(** Modelled from the spec: the strategy running the timed entries, the
    [j]-th one posted first, then the next, [n] of them; an entry whose
    deadline has passed is run all the same. *)
Fixpoint run_ticks (heap : list action_type) (fuel : nat) (allowed : bool)
    (j n : nat) (w : world) : outcome :=
  match n with
  | O => Returned w
  | S n' =>
      match timed (posted w) !! j with
      | None => Returned w
      | Some e =>
          match dispatch heap fuel allowed (sub_what e) w with
          | Returned w' => run_ticks heap fuel allowed (S j) n' w'
          | o => o
          end
      end
  end.

End actions.
Arguments action_type : clear implicits.
Arguments function_type : clear implicits.
Arguments invoker : clear implicits.

End Sched.

(** ** The remaining overloads *)

Module Overloads.
Import Sched.
Section overloads.
Context {U : Type}.
Local Abbreviation world := (world U).
Local Abbreviation outcome := (outcome U).

(** [worker::is_subscribed], [worker::unsubscribe]: those of [lifetime]. *)
Definition worker_is_subscribed (q : worker) (w : world) : bool :=
  sub_is_subscribed (subs w) (worker_lifetime q).
Definition worker_unsubscribe (q : worker) (w : world) : world :=
  with_subs w (sub_unsubscribe (subs w) (worker_lifetime q)).

(** [make_schedulable(worker sc, F&& f)]; [p] is the address of the
    [action_type] that [make_action(f)] allocates, here and below. *)
Definition make_schedulable_worker_fn (sc : worker) (p : nat) : schedulable :=
  schedulable_shared sc (mk_action (Some p)).

(** [make_schedulable(worker sc, composite_subscription cs, F&& f)] *)
Definition make_schedulable_worker_cs_fn (sc : worker) (cs : composite_subscription)
    (p : nat) (w : world) : schedulable * world :=
  schedulable_scoped cs sc (mk_action (Some p)) w.


(** [worker::schedule(Arg0&&, ArgN&&...)] and
    [worker::schedule(time_point when, Arg0&&, ArgN&&...)] called with a
    function. *)
Definition worker_schedule_fn (q : worker) (when : option Z) (p : nat) (w : world)
  : outcome :=
  let n := make_schedulable_worker_fn q p in
  leaving n (inner_schedule q when n w).

(** The same two called with a subscription and a function.  In both
    forms the schedulable made is a temporary, destroyed when the
    primitive has returned. *)
Definition worker_schedule_cs_fn (q : worker) (when : option Z)
    (cs : composite_subscription) (p : nat) (w : world) : outcome :=
  let '(n, w') := make_schedulable_worker_cs_fn q cs p w in
  leaving n (inner_schedule q when n w').

(** [worker::schedule_periodically(duration initial, duration period,
    const schedulable&)]: [now() + initial]. *)
Definition schedule_periodically_after (q : worker) (initial period : Z)
    (scbl : schedulable) (p : nat) (w : world) : outcome :=
  match worker_inner q with
  | None => Aborted
  | Some _ =>
      schedule_periodically_rebind q (time_add (clock w) initial) period scbl p w
  end.

End overloads.
End Overloads.

(** * Properties *)

(** ** The time-ordered queue *)

(** ** 64-bit arithmetic *)

Module Int64Facts.
Import Int64.

(** Adding in 64 bits: an intermediate result may be reduced or not, and
    a sum that fits is the sum. *)
Lemma wrap64_add_l (a b : Z) : wrap64 (wrap64 a + b) = wrap64 (a + b).
Proof.
  unfold wrap64. f_equal.
  replace ((a + 2 ^ 63) mod 2 ^ 64 - 2 ^ 63 + b + 2 ^ 63)
    with ((a + 2 ^ 63) mod 2 ^ 64 + b) by lia.
  rewrite Zplus_mod_idemp_l. f_equal. lia.
Qed.

Lemma wrap64_bounds (z : Z) : in_range (wrap64 z).
Proof.
  unfold in_range, wrap64, int64_min, int64_max.
  pose proof (Z.mod_pos_bound (z + 2 ^ 63) (2 ^ 64)). lia.
Qed.

Lemma wrap64_fits (z : Z) : in_range z → wrap64 z = z.
Proof.
  unfold in_range, wrap64, int64_min, int64_max. intros H.
  rewrite Z.mod_small by lia. lia.
Qed.

(** An increment below the largest value goes up. *)
Lemma wrap64_succ (z : Z) : z < int64_max → z < wrap64 (z + 1).
Proof.
  intros H. destruct (decide (int64_min ≤ z + 1)) as [Hl|Hl].
  - rewrite wrap64_fits by (unfold in_range; lia). lia.
  - pose proof (wrap64_bounds (z + 1)) as [Hb _]. lia.
Qed.

End Int64Facts.

Module QueueFacts.
Import Queue Int64Facts.
Section facts.
Context {A : Type}.
Local Abbreviation item := (time_schedulable A).
Local Abbreviation elem := (elem_type A).

(** Strict priority: earlier deadline, then smaller ordinal. *)
Definition before (x y : elem) : Prop :=
  when x.1 < when y.1 ∨ (when x.1 = when y.1 ∧ x.2 < y.2).

Definition same_key (x y : elem) : Prop :=
  when x.1 = when y.1 ∧ x.2 = y.2.

Definition ord_lt (x y : elem) : Prop := x.2 < y.2.

Lemma compare_elem_true (a b : elem) :
  compare_elem a b = true ↔ before b a.
Proof.
  unfold compare_elem, before.
  destruct (Z.eqb_spec (when a.1) (when b.1)) as [E|E];
    rewrite Z.gtb_ltb, Z.ltb_lt; lia.
Qed.

Lemma compare_elem_false (a b : elem) :
  compare_elem a b = false ↔ before a b ∨ same_key a b.
Proof.
  rewrite <- not_true_iff_false, compare_elem_true.
  unfold before, same_key. lia.
Qed.

Lemma pq_best_spec (l : list elem) (c : elem) :
  pq_best c l ∈ c :: l ∧
  ∀ x, x ∈ c :: l → before (pq_best c l) x ∨ same_key (pq_best c l) x.
Proof.
  revert c. induction l as [|y l IH]; intros c; simpl.
  - split; [left|]. intros x Hx. apply list_elem_of_singleton in Hx as ->.
    right. by split.
  - unfold pq_best in *. simpl.
    destruct (compare_elem c y) eqn:E.
    + apply compare_elem_true in E.
      destruct (IH y) as [Hin Hle]. split.
      * by right.
      * intros x Hx. apply elem_of_cons in Hx as [->|Hx]; [|by apply Hle].
        specialize (Hle y (list_elem_of_here _ _)).
        unfold before, same_key in *. lia.
    + apply compare_elem_false in E.
      destruct (IH c) as [Hin Hle]. split.
      * apply elem_of_cons in Hin as [Hin|Hin];
          [rewrite Hin; left | right; by right].
      * intros x Hx. apply elem_of_cons in Hx as [->|Hx].
        { apply Hle. left. }
        apply elem_of_cons in Hx as [->|Hx]; [|apply Hle; by right].
        specialize (Hle c (list_elem_of_here _ _)).
        unfold before, same_key in *. lia.
Qed.

Lemma pq_remove_perm (m : elem) (l : list elem) :
  NoDup (snd <$> l) → m ∈ l → l ≡ₚ m :: pq_remove m l.
Proof.
  induction l as [|x l IH]; intros Hnd Hin; [by apply elem_of_nil in Hin|].
  simpl in *. apply NoDup_cons in Hnd as [Hx Hnd].
  destruct (Z.eqb_spec (when x.1) (when m.1)) as [E1|E1];
    destruct (Z.eqb_spec x.2 m.2) as [E2|E2]; simpl.
  1: { apply elem_of_cons in Hin as [->|Hin]; [done|].
       exfalso. apply Hx. rewrite E2. apply list_elem_of_fmap. eauto. }
  all: apply elem_of_cons in Hin as [->|Hin]; [done|];
       rewrite (IH Hnd Hin) at 1; apply Permutation_swap.
Qed.

Lemma pq_remove_sublist (m : elem) (l : list elem) : pq_remove m l `sublist_of` l.
Proof.
  induction l as [|x l IH]; simpl; [done|].
  destruct (_ && _); [by apply sublist_cons | by apply sublist_skip].
Qed.

(** Lists ordered by [before] are determined by their elements. *)
Lemma before_sorted_unique (l1 l2 : list elem) :
  StronglySorted before l1 → StronglySorted before l2 → l1 ≡ₚ l2 → l1 = l2.
Proof.
  apply StronglySorted_unique_strong. intros x y _ _.
  unfold before. lia.
Qed.

#[local] Instance ord_lt_antisymm : AntiSymm (=) ord_lt.
Proof. intros x y. unfold ord_lt. lia. Qed.

(** The elements pushed from counter [o], with the ordinals they get as
    long as the counter does not wrap. *)
Fixpoint number (o : Z) (items : list item) : list elem :=
  match items with
  | [] => []
  | v :: rest => (v, o) :: number (o + 1) rest
  end.

Lemma number_fst (o : Z) (items : list item) : fst <$> number o items = items.
Proof. revert o. induction items as [|v r IH]; intros o; simpl; [done|]. by rewrite IH. Qed.

Lemma number_lower (o : Z) (items : list item) :
  Forall (fun e : elem => o ≤ e.2) (number o items).
Proof.
  revert o. induction items as [|v r IH]; intros o; simpl; constructor.
  - simpl. lia.
  - eapply Forall_impl; [apply IH|]. simpl. intros; lia.
Qed.

Lemma number_sorted (o : Z) (items : list item) :
  StronglySorted ord_lt (number o items).
Proof.
  revert o. induction items as [|v r IH]; intros o; simpl; constructor; [apply IH|].
  eapply Forall_impl; [apply number_lower|]. unfold ord_lt. simpl. intros; lia.
Qed.

Lemma ord_sorted_NoDup (l : list elem) :
  StronglySorted ord_lt l → NoDup (snd <$> l).
Proof.
  induction 1 as [|x l Hs IH Hx]; csimpl; constructor; [|done].
  intros Hin. apply list_elem_of_fmap in Hin as (y & Hy & Hyl).
  rewrite Forall_forall in Hx. specialize (Hx y Hyl). unfold ord_lt in Hx. lia.
Qed.

Lemma sorted_filter_weaken (R R' : relation elem) (P : elem → Prop)
    `{!∀ x, Decision (P x)} (l : list elem) :
  (∀ x y, P x → P y → R x y → R' x y) →
  StronglySorted R l → StronglySorted R' (filter P l).
Proof.
  intros HR. induction 1 as [|x l Hs IH Hx]; [constructor|].
  rewrite filter_cons. case_decide as HP; [|done].
  constructor; [done|].
  apply Forall_forall. intros y Hy. apply list_elem_of_filter in Hy as [HPy Hy].
  rewrite Forall_forall in Hx. auto.
Qed.

Lemma filter_fst (P : item → Prop) `{!∀ x, Decision (P x)} (l : list elem) :
  filter P (fst <$> l) = fst <$> filter (fun e : elem => P e.1) l.
Proof.
  induction l as [|e l IH]; [done|].
  csimpl. rewrite !filter_cons. simpl. case_decide; csimpl; by rewrite IH.
Qed.

Section arranged.

(** Whatever order the container keeps, it holds the elements it was
    given. *)
Context (arrange : list elem → list elem).
Context (Hperm : ∀ l, arrange l ≡ₚ l).

(** The elements in the order the consumer loop sees them. *)
Fixpoint drain_elems (n : nat) (l : list elem) : list elem :=
  match n with
  | O => []
  | S k =>
      match pq_top l with
      | None => []
      | Some m => m :: drain_elems k (arrange (pq_remove m l))
      end
  end.

Lemma drain_n_elems (n : nat) (l : list elem) (o : Z) :
  drain_n arrange n (mk_queue l o) = fst <$> drain_elems n l.
Proof.
  revert l. induction n as [|n IH]; intros l; [done|].
  destruct l as [|c l]; [done|].
  cbn [drain_n drain_elems]. unfold empty, top, pop, pq_pop. simpl.
  by rewrite IH.
Qed.

Lemma drain_elems_spec (n : nat) (l : list elem) :
  length l = n → NoDup (snd <$> l) →
  drain_elems n l ≡ₚ l ∧ StronglySorted before (drain_elems n l).
Proof.
  revert l. induction n as [|n IH]; intros l Hlen Hnd.
  - destruct l; [|done]. split; [done | constructor].
  - destruct l as [|c l]; [done|].
    cbn [drain_elems pq_top].
    destruct (pq_best_spec l c) as [Hin Hle].
    set (m := pq_best c l) in *.
    pose proof (pq_remove_perm m (c :: l) Hnd Hin) as Hp.
    assert (Hnd' : NoDup (snd <$> arrange (pq_remove m (c :: l)))).
    { rewrite Hperm. eapply sublist_NoDup; [exact Hnd|].
      apply fmap_sublist. apply (pq_remove_sublist m (c :: l)). }
    assert (Hlen' : length (arrange (pq_remove m (c :: l))) = n).
    { rewrite Hperm. apply Permutation_length in Hp. simpl in *. lia. }
    destruct (IH _ Hlen' Hnd') as [Hp' Hs'].
    split; [by rewrite Hp', Hperm, <- Hp|].
    constructor; [done|].
    apply Forall_forall. intros x Hx. rewrite Hp', Hperm in Hx.
    assert (Hxl : x ∈ c :: l).
    { eapply elem_of_sublist; [exact Hx | apply pq_remove_sublist]. }
    destruct (Hle x Hxl) as [?|[Hk1 Hk2]]; [done|].
    exfalso.
    assert (Hnd2 : NoDup (snd <$> m :: pq_remove m (c :: l))) by by rewrite <- Hp.
    rewrite fmap_cons in Hnd2. apply NoDup_cons in Hnd2 as [Hm _].
    apply Hm. rewrite Hk2. apply list_elem_of_fmap. exists x. split; [done|].
    exact Hx.
Qed.

(** Draining gives the one [before]-ordered list of the elements held. *)
Lemma drain_is_sorted_elems (q : schedulable_queue A) (l : list elem) :
  queue q ≡ₚ l → NoDup (snd <$> l) → StronglySorted before l →
  drain arrange q = fst <$> l.
Proof.
  intros Hq Hnd Hs. destruct q as [ql o]. unfold drain. simpl in *.
  rewrite drain_n_elems. f_equal.
  destruct (drain_elems_spec (length ql) ql eq_refl) as [Hp Hs'].
  { by rewrite Hq. }
  apply before_sorted_unique; [done..|]. by rewrite Hp.
Qed.

Lemma push_all_number (items : list item) (q : schedulable_queue A) :
  int64_min ≤ ordinal q → ordinal q + Z.of_nat (length items) ≤ int64_max →
  queue (push_all arrange q items) ≡ₚ queue q ++ number (ordinal q) items ∧
  ordinal (push_all arrange q items) = ordinal q + Z.of_nat (length items).
Proof.
  revert q. induction items as [|v rest IH]; intros [l o] Hlow Hfit; simpl in *.
  - rewrite app_nil_r, Z.add_0_r. done.
  - unfold push_all in *. simpl.
    assert (Hw : wrap64 (o + 1) = o + 1).
    { apply wrap64_fits. unfold in_range. lia. }
    destruct (IH (push arrange (mk_queue l o) v)) as [Hq Ho];
      unfold push; simpl; rewrite ?Hw; try lia.
    unfold push in Hq, Ho. simpl in Hq, Ho. rewrite Hw in Hq, Ho.
    split; [|lia].
    rewrite Hq. unfold pq_push. rewrite Hperm, <- app_assoc. done.
Qed.

(** X19. For every sequence of items pushed into a queue whose counter
    starts in range and does not reach its largest value during the
    pushes, and whatever order the container keeps inside, reading
    [top()] and [pop()] until the queue is empty yields exactly the pushed
    items, in ascending deadline order, and for each deadline the items
    with that deadline in the order they were pushed; no payload is ever
    compared.  In particular deadlines 5, 5, 3 come out as 3, first 5,
    second 5. *)
Theorem queue_drain_deadline_then_fifo (items : list item) (o0 : Z)
    (Hlow : int64_min ≤ o0)
    (Hfit : o0 + Z.of_nat (length items) ≤ int64_max) :
  let q := push_all arrange (mk_queue [] o0) items in
  drain arrange q ≡ₚ items ∧
  StronglySorted (fun x y : item => when x ≤ when y) (drain arrange q) ∧
  (∀ d, filter (fun x : item => when x = d) (drain arrange q)
        = filter (fun x : item => when x = d) items) ∧
  (∀ a b c, items = [mk_item 5 a; mk_item 5 b; mk_item 3 c] →
            drain arrange q = [mk_item 3 c; mk_item 5 a; mk_item 5 b]).
Proof.
  intros q.
  destruct (push_all_number items (mk_queue [] o0) Hlow Hfit) as [Hq _].
  fold q in Hq. simpl in Hq.
  set (nl := number o0 items) in *.
  assert (Hnd : NoDup (snd <$> queue q)).
  { rewrite Hq. apply ord_sorted_NoDup, number_sorted. }
  destruct (drain_elems_spec (length (queue q)) (queue q) eq_refl Hnd) as [Hp Hs].
  assert (Hd : drain arrange q
               = fst <$> drain_elems (length (queue q)) (queue q)).
  { unfold drain. destruct q as [ql o]. simpl. apply drain_n_elems. }
  split; [|split; [|split]].
  - rewrite Hd, Hp, Hq. unfold nl. by rewrite number_fst.
  - rewrite Hd. eapply StronglySorted_fmap; [|exact Hs].
    intros x y. unfold before. lia.
  - intros d. rewrite Hd. rewrite <- (number_fst o0 items) at 1. fold nl.
    rewrite !filter_fst. f_equal.
    apply (StronglySorted_unique ord_lt).
    + eapply sorted_filter_weaken; [|exact Hs].
      unfold before, ord_lt. simpl. intros; lia.
    + eapply sorted_filter_weaken; [|apply number_sorted]. auto.
    + by rewrite Hp, Hq.
  - intros a b c Hi.
    rewrite (drain_is_sorted_elems q
               [(mk_item 3 c, o0 + 1 + 1); (mk_item 5 a, o0); (mk_item 5 b, o0 + 1)]).
    + done.
    + rewrite Hq. unfold nl. rewrite Hi. simpl.
      rewrite (Permutation_swap (mk_item 3 c, o0 + 1 + 1) (mk_item 5 b, o0 + 1)).
      by rewrite (Permutation_swap (mk_item 3 c, o0 + 1 + 1) (mk_item 5 a, o0)).
    + simpl. repeat (constructor; [rewrite ?elem_of_cons, elem_of_nil; lia|]).
      constructor.
    + constructor; [constructor; [repeat constructor|]|].
      * constructor; [|constructor]. right. simpl. lia.
      * constructor; [left; simpl; lia|]. constructor; [left; simpl; lia|].
        constructor.
Qed.

(** C1 (where the code departs from it). An item pushed later comes out
    before an item with the same deadline pushed earlier.  The counter of
    the queue is never initialised and wraps around: in a queue whose
    counter holds the largest value, the first item pushed gets that
    ordinal, the second gets the smallest one, and [top()] and [pop()]
    yield the second item first, whatever order the container keeps. *)
Theorem counter_wrap_breaks_fifo (d : Z) (a b : A) :
  let q := push arrange (push arrange (mk_queue [] int64_max) (mk_item d a))
             (mk_item d b) in
  ordinal q = int64_min + 1 ∧
  top q = Some (mk_item d b) ∧
  drain arrange q = [mk_item d b; mk_item d a].
Proof.
  intros q.
  assert (Hq : queue q ≡ₚ [(mk_item d b, int64_min); (mk_item d a, int64_max)]).
  { unfold q, push, pq_push. cbn [queue ordinal]. rewrite !Hperm. cbn [app].
    change (wrap64 (int64_max + 1)) with int64_min. apply Permutation_swap. }
  assert (Hnd : NoDup (snd <$> [(mk_item d b, int64_min); (mk_item d a, int64_max)])).
  { simpl. repeat (constructor; [rewrite ?elem_of_cons, elem_of_nil;
                                  unfold int64_min, int64_max; lia|]).
    constructor. }
  assert (Hs : StronglySorted before
                 [(mk_item d b, int64_min); (mk_item d a, int64_max)]).
  { constructor; [repeat constructor|]. constructor; [|constructor].
    right. cbn [fst snd when]. unfold int64_min, int64_max. lia. }
  pose proof (drain_is_sorted_elems q _ Hq Hnd Hs) as Hd.
  split; [reflexivity|]. split; [|exact Hd].
  unfold drain in Hd. destruct (queue q) as [|c l] eqn:E.
  { apply Permutation_nil_l in Hq. done. }
  destruct q as [ql o]. simpl in E. subst ql. simpl in Hd.
  unfold top. simpl.
  unfold empty, top in Hd. simpl in Hd. by injection Hd as ->.
Qed.

End arranged.
End facts.

Lemma queue_drain_deadline_then_fifo_witness :
  drain reverse
    (push_all reverse (mk_queue [] 0)
       [mk_item 5 1%nat; mk_item 5 2%nat; mk_item 3 3%nat])
  = [mk_item 3 3%nat; mk_item 5 1%nat; mk_item 5 2%nat].
Proof.
  destruct (queue_drain_deadline_then_fifo reverse reverse_Permutation
              [mk_item 5 1%nat; mk_item 5 2%nat; mk_item 3 3%nat] 0)
    as (_ & _ & _ & Hex).
  - vm_compute. discriminate.
  - vm_compute. discriminate.
  - by apply Hex.
Defined.

Lemma counter_wrap_breaks_fifo_witness :
  drain reverse
    (push reverse (push reverse (mk_queue [] int64_max) (mk_item 5 1%nat))
       (mk_item 5 2%nat))
  = [mk_item 5 2%nat; mk_item 5 1%nat].
Proof.
  destruct (counter_wrap_breaks_fifo reverse reverse_Permutation 5 1%nat 2%nat)
    as (_ & _ & H).
  exact H.
Defined.

End QueueFacts.

(** ** Recursion contexts, actions and schedulables *)

Module SchedFacts.
Import Sched.
Export Int64Facts.

(** Concrete values for the examples. *)
Definition world0 : world nat :=
  mk_world (mk_subscriptions ∅ [] 0) [] [] 0 [] 0%nat [].
Definition worker0 : worker := mk_worker (Some 7%nat) 1%nat.
Definition never_invoke : invoker nat := fun _ _ _ => Aborted.

Section facts.
Context {U : Type}.
Local Abbreviation world := (world U).
Local Abbreviation outcome := (outcome U).

Lemma flag_alloc (w : world) (b : bool) :
  flag (with_flags w (flags w ++ [b])) (length (flags w)) = b.
Proof. unfold flag. simpl. by rewrite list_lookup_middle. Qed.

Lemma flag_set (w : world) (a : nat) (b : bool) :
  (a < length (flags w))%nat → flag (set_flag w a b) a = b.
Proof. intros H. unfold flag, set_flag. simpl. by rewrite list_lookup_insert_eq. Qed.

Lemma flag_set_ne (w : world) (a c : nat) (b : bool) :
  a ≠ c → flag (set_flag w a b) c = flag w c.
Proof. intros H. unfold flag, set_flag. simpl. by rewrite list_lookup_insert_ne. Qed.

(** C9. A freshly constructed [recurse] reports [is_requested() == true]
    before any [reset()], whatever bool it was constructed on; after
    [reset()] it reports false; after the [recursed] obtained from
    [get_recursed()] is invoked it reports true again.  The [recurse] inside
    a new [recursion] is such a fresh one: read before any [reset()] it
    shows a request that no function made. *)
Theorem recurse_fresh_is_requested (a : nat) (b : bool) (w : world) :
  (let '(r, w1) := new_recurse a w in
   is_requested r w1 = true ∧
   is_requested r (recurse_reset r w1) = false ∧
   is_requested r (recursed_call (get_recursed r) (recurse_reset r w1)) = true) ∧
  (let '(rn, w1) := new_recursion b w in
   is_requested (get_recurse rn) w1 = true).
Proof.
  unfold new_recursion, new_recurse, is_requested, recurse_reset, recursed_call,
    get_recursed, get_recurse.
  simpl. split; [split; [apply flag_alloc|split]|].
  - apply flag_set. simpl. rewrite length_app. simpl. lia.
  - apply flag_set. simpl. rewrite length_insert, length_app. simpl. lia.
  - apply (flag_alloc (with_flags w (flags w ++ [b])) true).
Qed.

(** C10. A copy of a schedulable never holds the recursion scope, also
    when the original holds it; copy assignment leaves the recursion
    scope of the target as it was; requesting recursion through a copy is
    a null dereference, while the schedulable that [set_recursed] was
    called on holds the scope and its request reaches the [recursed] of
    the context. *)
Theorem copy_does_not_acquire_recursion (s target : schedulable) (r : recurse)
    (w : world) :
  is_recursed (schedulable_copy s) = false ∧
  is_recursed (set_recursed s r) = true ∧
  is_recursed (schedulable_copy (set_recursed s r)) = false ∧
  recursed_scope (schedulable_assign target (set_recursed s r))
    = recursed_scope target ∧
  request_recursion (schedulable_copy (set_recursed s r)) w = Aborted ∧
  request_recursion (set_recursed s r) w
    = Returned (recursed_call (get_recursed r) w).
Proof. by repeat split. Qed.

(** What the destructor leaves alone: everything but the registrations. *)
Lemma destroy_keeps (s : schedulable) (w : world) :
  let w' := schedulable_destroy s w in
  posted w' = posted w ∧ times w' = times w ∧ calls w' = calls w ∧
  user w' = user w ∧ flags w' = flags w ∧ clock w' = clock w ∧
  revoked (subs w') = revoked (subs w) ∧
  next_token (subs w') = next_token (subs w) ∧
  (scoped s = false → w' = w).
Proof.
  unfold schedulable_destroy, sub_remove.
  destruct (scoped s); [|by repeat split].
  destruct (action_scope s); simpl; repeat split; try done; by destruct w.
Qed.

Lemma sub_remove_elem (st : subscriptions) (t : weak_subscription)
    (r : nat * nat * nat) :
  r ∈ registered (sub_remove st t) ↔
  r ∈ registered st ∧ ∀ k, t = Some k → r.1.1 ≠ k.
Proof.
  destruct t as [k|]; simpl.
  - rewrite list_elem_of_filter. split.
    + intros [H1 H2]. split; [done|]. by intros ? [= <-].
    + intros [H1 H2]. split; [by apply H2 | done].
  - split; [intros H; split; [done|done] | by intros [H _]].
Qed.

(** The schedulable that [make_schedulable(s, q)] returns and the world
    it leaves. *)
Lemma make_schedulable_fields (s : schedulable) (q : worker) (w : world) :
  let n := (make_schedulable s q w).1 in
  let w' := (make_schedulable s q w).2 in
  lifetime n = lifetime s ∧ controller n = q ∧ activity n = activity s ∧
  scoped n = scoped s ∧ recursed_scope n = None ∧
  posted w' = posted w ∧ times w' = times w ∧ calls w' = calls w ∧
  user w' = user w ∧ flags w' = flags w ∧ clock w' = clock w ∧
  (scoped s = false → w' = w ∧ action_scope n = None) ∧
  (sub_is_subscribed (subs w) (worker_lifetime q) = true →
   revoked (subs w') = revoked (subs w)).
Proof.
  unfold make_schedulable, schedulable_inherit, get_subscription, get_action.
  cbn [scoped schedulable_copy lifetime activity].
  destruct (scoped s) eqn:Hsc.
  - destruct (sub_add (subs w) (worker_lifetime q) (lifetime s)) as [st t] eqn:Ha.
    cbn [fst snd].
    pose proof (destroy_keeps (schedulable_copy (schedulable_copy s)) (with_subs w st))
      as (A1 & A2 & A3 & A4 & A5 & A6 & A7 & _).
    pose proof (destroy_keeps (schedulable_copy s)
                  (schedulable_destroy (schedulable_copy (schedulable_copy s))
                     (with_subs w st)))
      as (B1 & B2 & B3 & B4 & B5 & B6 & B7 & _).
    cbv zeta in *. rewrite B1, B2, B3, B4, B5, B6, B7, A1, A2, A3, A4, A5, A6, A7.
    simpl. do 11 (split; [done|]). split; [done|].
    intros Hq. unfold sub_add in Ha. rewrite Hq in Ha. by injection Ha as <- _.
  - cbn [fst snd]. unfold schedulable_destroy. cbn [scoped schedulable_copy].
    rewrite Hsc. by repeat split.
Qed.

Lemma make_schedulable_fn_fields (s : schedulable) (p : nat) (w : world) :
  let n := (make_schedulable_fn s p w).1 in
  let w' := (make_schedulable_fn s p w).2 in
  lifetime n = lifetime s ∧ controller n = controller s ∧
  activity n = mk_action (Some p) ∧
  scoped n = scoped s ∧ recursed_scope n = None ∧
  posted w' = posted w ∧ times w' = times w ∧ calls w' = calls w ∧
  user w' = user w ∧ flags w' = flags w ∧ clock w' = clock w ∧
  (sub_is_subscribed (subs w) (worker_lifetime (controller s)) = true →
   revoked (subs w') = revoked (subs w)).
Proof.
  unfold make_schedulable_fn, schedulable_inherit, get_subscription, get_worker.
  cbn [scoped schedulable_copy lifetime controller].
  destruct (scoped s) eqn:Hsc.
  - destruct (sub_add (subs w) (worker_lifetime (controller s)) (lifetime s))
      as [st t] eqn:Ha.
    cbn [fst snd].
    pose proof (destroy_keeps (schedulable_copy (schedulable_copy s)) (with_subs w st))
      as (A1 & A2 & A3 & A4 & A5 & A6 & A7 & _).
    pose proof (destroy_keeps (schedulable_copy s)
                  (schedulable_destroy (schedulable_copy (schedulable_copy s))
                     (with_subs w st)))
      as (B1 & B2 & B3 & B4 & B5 & B6 & B7 & _).
    cbv zeta in *. rewrite B1, B2, B3, B4, B5, B6, B7, A1, A2, A3, A4, A5, A6, A7.
    simpl. do 11 (split; [done|]).
    intros Hq. unfold sub_add in Ha. rewrite Hq in Ha. by injection Ha as <- _.
  - cbn [fst snd]. unfold schedulable_destroy. cbn [scoped schedulable_copy].
    rewrite Hsc. by repeat split.
Qed.

(** What [schedule_rebind] does when the worker has a strategy. *)
Lemma schedule_rebind_effect (q : worker) (when : option Z) (s : schedulable)
    (w : world) (i : nat) :
  worker_inner q = Some i →
  let n := (make_schedulable s q w).1 in
  ∃ w', schedule_rebind q when s w = Returned w' ∧
        posted w' = posted w ++ [mk_submission i when n] ∧
        user w' = user w ∧ calls w' = calls w ∧ flags w' = flags w ∧
        times w' = times w ∧ clock w' = clock w ∧
        (scoped s = false → subs w' = subs w) ∧
        (sub_is_subscribed (subs w) (worker_lifetime q) = true →
         revoked (subs w') = revoked (subs w)).
Proof.
  intros Hi. cbv zeta. unfold schedule_rebind, inner_schedule.
  pose proof (make_schedulable_fields s q w)
    as (H1 & H2 & H3 & H4 & H5 & H6 & H7 & H8 & H9 & H10 & H11 & H12 & H13).
  destruct (make_schedulable s q w) as [n w1]. cbn [fst snd] in *.
  rewrite Hi. cbn [leaving].
  pose proof (destroy_keeps n
                (with_posted w1 (posted w1 ++ [mk_submission i when n])))
    as (D1 & D2 & D3 & D4 & D5 & D6 & D7 & _ & D9).
  cbv zeta in *. eexists. split; [reflexivity|].
  rewrite D1, D2, D3, D4, D5, D6.
  cbn [posted with_posted user calls flags times clock].
  split; [by rewrite H6|]. do 5 (split; [done|]). split.
  - intros Hsc. rewrite D9 by congruence. cbn [subs with_posted].
    by destruct (H12 Hsc) as [-> _].
  - intros Hq. rewrite D7. cbn [subs with_posted]. by apply H13.
Qed.

(** The tokens a schedulable holds were handed out by the subscriptions. *)
Definition issued (s : schedulable) (w : world) : Prop :=
  ∀ k, action_scope s = Some k → (k < next_token (subs w))%nat.

(** C8. [w.schedule(s)] and [w.schedule(when, s)] hand the primitive of the
    strategy the schedulable made by [make_schedulable(s, w)], a temporary
    that is destroyed when the primitive has returned.  Its worker is [w],
    whatever worker [s] stored, and it keeps the action, the subscription
    and the scoping mode of [s]: for an unscoped [s] it is unscoped and
    nothing is registered; for a scoped [s] it is scoped and, with [w]
    subscribed, its subscription is registered in that of [w] while the
    primitive runs (with [w] unsubscribed it is revoked at once); once the
    call is over the registration of the temporary is gone again.  For a
    scoped [s] the copies passed by value take the registration of [s]
    itself away when they are destroyed. *)
Theorem worker_schedule_rebinds (q : worker) (s : schedulable) (when : Z)
    (w : world) :
  let '(n, w') := make_schedulable s q w in
  worker_schedule q s w = leaving n (inner_schedule q None n w') ∧
  worker_schedule_at q when s w = leaving n (inner_schedule q (Some when) n w') ∧
  get_worker n = q ∧ worker_eq (get_worker n) q = true ∧
  get_action n = get_action s ∧
  get_subscription n = get_subscription s ∧
  scoped n = scoped s ∧
  (scoped s = false → action_scope n = None ∧ w' = w) ∧
  (scoped s = true →
   sub_is_subscribed (subs w) (worker_lifetime q) = true → issued s w →
   action_scope n = Some (next_token (subs w)) ∧
   (next_token (subs w), worker_lifetime q, get_subscription s)
     ∈ registered (subs w')) ∧
  (scoped s = true →
   sub_is_subscribed (subs w) (worker_lifetime q) = false →
   sub_is_subscribed (subs w') (get_subscription s) = false) ∧
  (scoped s = true →
   ∀ t r, action_scope s = Some t → r ∈ registered (subs w') → r.1.1 ≠ t) ∧
  (∀ i, worker_inner q = Some i →
     ∃ w1 w2,
       worker_schedule q s w = Returned w1 ∧
       posted w1 = posted w ++ [mk_submission i None n] ∧
       worker_schedule_at q when s w = Returned w2 ∧
       posted w2 = posted w ++ [mk_submission i (Some when) n] ∧
       ∀ t r, action_scope n = Some t → r ∈ registered (subs w1) → r.1.1 ≠ t).
Proof.
  unfold worker_schedule, worker_schedule_at, schedule_rebind.
  pose proof (make_schedulable_fields s q w)
    as (H1 & H2 & H3 & H4 & H5 & H6 & _ & _ & _ & _ & _ & H12 & _).
  assert (Hreg : scoped s = true →
    sub_is_subscribed (subs w) (worker_lifetime q) = true → issued s w →
    action_scope (make_schedulable s q w).1 = Some (next_token (subs w)) ∧
    (next_token (subs w), worker_lifetime q, get_subscription s)
      ∈ registered (subs (make_schedulable s q w).2)).
  { intros Hsc Hq Hiss.
    unfold make_schedulable, schedulable_inherit, sub_add, get_subscription.
    cbn [scoped schedulable_copy lifetime]. rewrite Hsc, Hq. cbn [fst snd].
    split; [done|].
    unfold schedulable_destroy. cbn [scoped schedulable_copy action_scope].
    rewrite Hsc. cbn [subs with_subs].
    rewrite !sub_remove_elem. cbn [registered].
    split; [split; [left|]|]; intros k Hk; simpl; specialize (Hiss k Hk); lia. }
  assert (Hdead : scoped s = true →
    sub_is_subscribed (subs w) (worker_lifetime q) = false →
    sub_is_subscribed (subs (make_schedulable s q w).2) (get_subscription s) = false).
  { intros Hsc Hq.
    unfold make_schedulable, schedulable_inherit, sub_add, get_subscription.
    cbn [scoped schedulable_copy lifetime]. rewrite Hsc, Hq. cbn [fst snd].
    pose proof (destroy_keeps (schedulable_copy (schedulable_copy s))
                  (with_subs w (sub_unsubscribe (subs w) (lifetime s))))
      as (_ & _ & _ & _ & _ & _ & A7 & _).
    pose proof (destroy_keeps (schedulable_copy s)
                  (schedulable_destroy (schedulable_copy (schedulable_copy s))
                     (with_subs w (sub_unsubscribe (subs w) (lifetime s)))))
      as (_ & _ & _ & _ & _ & _ & B7 & _).
    cbv zeta in *. unfold sub_is_subscribed. rewrite B7, A7.
    cbn [subs with_subs]. unfold sub_unsubscribe. cbn [revoked].
    apply bool_decide_eq_false. intros H. apply H.
    apply elem_of_union_l, elem_of_list_to_set.
    destruct (length (registered (subs w))); simpl; left. }
  assert (Hgone : scoped s = true →
    ∀ t r, action_scope s = Some t →
           r ∈ registered (subs (make_schedulable s q w).2) → r.1.1 ≠ t).
  { intros Hsc t r Ht. unfold make_schedulable.
    destruct (schedulable_inherit _ q _ w) as [n1 w1]. cbn [snd].
    unfold schedulable_destroy at 1. cbn [scoped schedulable_copy action_scope].
    rewrite Hsc, Ht. cbn [subs with_subs]. intros Hr.
    apply sub_remove_elem in Hr as [_ Hr]. by apply Hr. }
  destruct (make_schedulable s q w) as [n w'] eqn:E. cbn [fst snd] in *.
  unfold get_worker, get_action, get_subscription in *.
  do 2 (split; [done|]). split; [done|]. split.
  { rewrite H2. unfold worker_eq. by rewrite !bool_decide_eq_true_2. }
  do 3 (split; [done|]). split.
  { intros Hsc. by destruct (H12 Hsc) as [-> ->]. }
  split; [done|]. split; [done|]. split; [done|].
  intros i Hi. unfold inner_schedule. rewrite Hi. cbn [leaving].
  pose proof (destroy_keeps n (with_posted w' (posted w' ++ [mk_submission i None n])))
    as (D1 & _).
  pose proof (destroy_keeps n
                (with_posted w' (posted w' ++ [mk_submission i (Some when) n])))
    as (D2 & _).
  cbv zeta in *. eexists _, _. split; [reflexivity|]. split.
  { rewrite D1. simpl. by rewrite H6. }
  split; [reflexivity|]. split.
  { rewrite D2. simpl. by rewrite H6. }
  intros t r Ht Hr. unfold schedulable_destroy in Hr.
  destruct (scoped n); [|by rewrite H4 in Ht || (destruct (scoped s) eqn:Hs;
    [done | by destruct (H12 eq_refl) as [_ Hnone]; rewrite Hnone in Ht])].
  cbn [subs with_subs] in Hr. apply sub_remove_elem in Hr as [_ Hr].
  by apply Hr.
Qed.

(** C5 (as the code has it). Invoking the empty action, [action::empty()]
    or [make_action_empty()], with any schedulable and recursion context
    ends in [abort()]: [shared_empty] holds an empty function and
    [action_type::operator()] guards against it.  Nothing is called and no
    recursion is requested, and the invocation does not return. *)
Theorem empty_action_aborts (heap : list (action_type U)) (invoke : invoker U)
    (n : nat) (s : schedulable) (r : recurse) (w : world) :
  action_call heap action_empty invoke n s r w = Aborted ∧
  action_call heap make_action_empty invoke n s r w = Aborted.
Proof. by split. Qed.

Lemma unsubscribe_inactive (s : schedulable) (w : world) :
  is_subscribed s (unsubscribe s w) = false.
Proof.
  unfold is_subscribed, unsubscribe, sub_is_subscribed, sub_unsubscribe. simpl.
  apply bool_decide_eq_false. intros H. apply H.
  apply elem_of_union_l, elem_of_list_to_set.
  destruct (length (registered (subs w))); simpl; left.
Qed.

(** C7 (as the code has it). Invoking a schedulable whose scope is
    inactive aborts.  For one whose scope is active: when an exception
    leaves the action, the detacher unsubscribes the scope of the
    schedulable before the exception goes on, so invoking it again aborts;
    when the action returns, the detacher has been disarmed and the world is
    exactly as the action left it, the scope included. *)
Theorem schedulable_invoke_detaches_on_exception (heap : list (action_type U))
    (k : nat) (s : schedulable) (r : recurse) (w : world) :
  (is_subscribed s w = false → schedulable_invoke heap (S k) s r w = Aborted) ∧
  (is_subscribed s w = true →
   ∀ w', action_call heap (activity s) (schedulable_invoke heap k) k s r w = Thrown w' →
     schedulable_invoke heap (S k) s r w = Thrown (unsubscribe s w') ∧
     is_subscribed s (unsubscribe s w') = false ∧
     ∀ k' r', schedulable_invoke heap (S k') s r' (unsubscribe s w') = Aborted) ∧
  (is_subscribed s w = true →
   ∀ w', action_call heap (activity s) (schedulable_invoke heap k) k s r w = Returned w' →
     schedulable_invoke heap (S k) s r w = Returned w').
Proof.
  split; [|split].
  - intros H. simpl. by rewrite H.
  - intros H w' Hc. simpl. rewrite H, Hc. simpl.
    split; [done|]. split; [apply unsubscribe_inactive|].
    intros k' r'. by rewrite unsubscribe_inactive.
  - intros H w' Hc. simpl. by rewrite H, Hc.
Qed.

Lemma action_loop_unsubscribed (fn : schedulable → world → outcome) (n : nat)
    (s : schedulable) (r : recurse) (w : world) :
  is_subscribed s w = false → action_loop fn (S n) s r w = Returned w.
Proof. intros H. simpl. by rewrite H. Qed.

Lemma schedule_posts_once (s : schedulable) (w : world) (i : nat) :
  is_subscribed s w = true → worker_inner (controller s) = Some i →
  ∃ n w', schedule s w = Returned w' ∧
          posted w' = posted w ++ [mk_submission i None n] ∧
          get_worker n = controller s ∧ get_action n = activity s ∧
          get_subscription n = lifetime s ∧ scoped n = scoped s ∧
          user w' = user w ∧ calls w' = calls w ∧ flags w' = flags w ∧
          times w' = times w ∧ clock w' = clock w.
Proof.
  intros Hs Hi. unfold schedule. rewrite Hs. unfold worker_schedule.
  pose proof (make_schedulable_fields s (controller s) w)
    as (H1 & H2 & H3 & H4 & _).
  destruct (schedule_rebind_effect (controller s) None s w i Hi)
    as (w' & E & P & Hu & Hc & Hf & Ht & Hk & _).
  exists (make_schedulable s (controller s) w).1, w'. rewrite E.
  unfold get_worker, get_action, get_subscription. by repeat split.
Qed.

(** C2. One invocation of the action made by [make_action(fn)] with
    schedulable [s] and context [r].  If [s] is not subscribed it returns
    at once.  Otherwise the requested flag is reset and [fn] is called
    with [s] holding the recursion scope; when that call returns: if [r]
    allows and recursion was requested, the loop goes round again in the
    same invocation; if [r] does not allow and recursion was requested,
    the invocation ends with the one call [s.schedule()], which for a
    subscribed [s] posts exactly one schedulable, with the action and
    subscription of [s], to the worker of [s]; if recursion was not
    requested, it returns with nothing posted. *)
Theorem make_action_decision_table
    (fn : invoker U → schedulable → world → outcome) (invoke : invoker U)
    (k : nat) (s : schedulable) (r : recurse) (w : world) :
  let s' := set_recursed s r in
  let run := action_type_call (make_action fn) invoke (S k) s r w in
  (is_subscribed s w = false → run = Returned w) ∧
  (is_subscribed s w = true →
   ((isrequested r < length (flags w))%nat →
      is_requested r (recurse_reset r w) = false) ∧
   (∀ o, fn invoke s' (recurse_reset r w) = o →
      (∀ w1, o ≠ Returned w1) → run = o) ∧
   ∀ w1, fn invoke s' (recurse_reset r w) = Returned w1 →
     (is_allowed r w1 = true → is_requested r w1 = true →
        run = action_loop (fn invoke) k s' r w1) ∧
     (is_allowed r w1 = false → is_requested r w1 = true →
        run = schedule s' w1 ∧
        ∀ i, is_subscribed s w1 = true → worker_inner (controller s) = Some i →
          ∃ n w2, run = Returned w2 ∧
                  posted w2 = posted w1 ++ [mk_submission i None n] ∧
                  get_worker n = controller s ∧ get_action n = activity s ∧
                  get_subscription n = lifetime s ∧ calls w2 = calls w1) ∧
     (is_requested r w1 = false → run = Returned w1)).
Proof.
  intros s' run. unfold run, action_type_call, make_action. simpl. fold s'.
  change (is_subscribed s' w) with (is_subscribed s w).
  split; [intros H; by rewrite H|].
  intros H. rewrite H. split; [|split].
  - intros Hr. by apply flag_set.
  - intros o Ho Hne. rewrite Ho. destruct o; try done. by destruct (Hne w0).
  - intros w1 Hf. rewrite Hf. split; [|split].
    + intros Ha Hq. by rewrite Ha, Hq.
    + intros Ha Hq. rewrite Ha, Hq. simpl. split; [done|].
      intros i Hs Hi.
      destruct (schedule_posts_once s' w1 i Hs Hi)
        as (n & w2 & E & Hp & Hw & Hact & Hl & _ & _ & Hc & _).
      exists n, w2. by rewrite E.
    + intros Hq. rewrite Hq. by rewrite orb_true_r.
Qed.

(** C4. When the scope of the schedulable became inactive during a call
    of [fn], the call is not cut short, and after it returns the
    invocation returns the world as the call left it: whatever [allowed]
    and [requested] are, [fn] is not called again and nothing is posted,
    because the loop tests [is_subscribed] and [schedule()] does nothing
    for an unsubscribed schedulable. *)
Theorem revoked_in_flight_stops_recursion
    (fn : invoker U → schedulable → world → outcome) (invoke : invoker U)
    (k : nat) (s : schedulable) (r : recurse) (w w1 : world)
    (Hactive : is_subscribed s w = true)
    (Hcall : fn invoke (set_recursed s r) (recurse_reset r w) = Returned w1)
    (Hrevoked : is_subscribed s w1 = false) :
  action_type_call (make_action fn) invoke (S (S k)) s r w = Returned w1 ∧
  schedule (set_recursed s r) w1 = Returned w1 ∧
  ∀ n, action_loop (fn invoke) (S n) (set_recursed s r) r w1 = Returned w1.
Proof.
  assert (Hs : schedule (set_recursed s r) w1 = Returned w1).
  { unfold schedule. change (is_subscribed (set_recursed s r) w1)
      with (is_subscribed s w1). by rewrite Hrevoked. }
  assert (Hl : ∀ n, action_loop (fn invoke) (S n) (set_recursed s r) r w1
                    = Returned w1).
  { intros n. by apply action_loop_unsubscribed. }
  split; [|by split].
  unfold action_type_call, make_action.
  cbn [f action_loop].
  change (is_subscribed (set_recursed s r) w) with (is_subscribed s w).
  rewrite Hactive, Hcall.
  destruct (is_allowed r w1), (is_requested r w1); cbn [negb orb]; try done.
  apply Hl.
Qed.

(** *** Functions that only ask to be run again *)

(** The requests that neither cancel nor throw. *)
Definition polite (qs : list user_request) : Prop :=
  Forall (fun q => q = Recurse ∨ ∃ d, q = Elapse d) qs.

Definition is_recurse (q : user_request) : bool :=
  match q with Recurse => true | _ => false end.

Definition wants (qs : list user_request) : bool := existsb is_recurse qs.

(** From state [u] the function requests recursion on [k] calls in a row
    and not on the next one, and never cancels or throws. *)
Fixpoint behaves (uf : U → U * list user_request) (k : nat) (u : U) : Prop :=
  polite (uf u).2 ∧
  match k with
  | O => wants (uf u).2 = false
  | S k' => wants (uf u).2 = true ∧ behaves uf k' (uf u).1
  end.

(** The states at which those [k + 1] calls are entered, and the state
    left by the last one. *)
Fixpoint entered (uf : U → U * list user_request) (k : nat) (u : U) : list U :=
  match k with
  | O => [u]
  | S k' => u :: entered uf k' (uf u).1
  end.

Fixpoint left_by (uf : U → U * list user_request) (k : nat) (u : U) : U :=
  match k with
  | O => (uf u).1
  | S k' => left_by uf k' (uf u).1
  end.

Lemma user_steps_polite (s : schedulable) (c : nat) (qs : list user_request)
    (w : world) :
  recursed_scope s = Some (mk_recursed c) → polite qs →
  ∃ w', user_steps s qs w = Returned w' ∧
        subs w' = subs w ∧ times w' = times w ∧ posted w' = posted w ∧
        user w' = user w ∧ calls w' = calls w ∧
        flags w' = if wants qs then <[c:=true]> (flags w) else flags w.
Proof.
  intros Hc Hp. revert w. induction Hp as [|q qs Hq Hqs IH]; intros w.
  - exists w. by repeat split.
  - destruct Hq as [->|[d ->]]; simpl.
    + unfold request_recursion. rewrite Hc.
      destruct (IH (recursed_call (mk_recursed c) w))
        as (w' & E & H1 & H2 & H3 & H4 & H5 & H6).
      exists w'. rewrite E. repeat split; try done.
      rewrite H6. unfold recursed_call, set_flag. simpl.
      destruct (wants qs); [|done]. by rewrite list_insert_insert_eq.
    + destruct (IH (with_clock w (clock w + d)))
        as (w' & E & H1 & H2 & H3 & H4 & H5 & H6).
      exists w'. rewrite E. by repeat split.
Qed.

(** A [recurse] whose [requestor] is bound to its own [isrequested], with
    both bools alive. *)
Definition sound_recurse (r : recurse) (w : world) : Prop :=
  requestor r = mk_recursed (isrequested r) ∧
  (isrequested r < length (flags w))%nat ∧ isallowed r ≠ isrequested r.

Lemma new_recursion_spec (b : bool) (w : world) :
  let r := get_recurse (new_recursion b w).1 in
  let w1 := (new_recursion b w).2 in
  sound_recurse r w1 ∧ is_allowed r w1 = b ∧
  subs w1 = subs w ∧ times w1 = times w ∧ posted w1 = posted w ∧
  user w1 = user w ∧ calls w1 = calls w.
Proof.
  unfold new_recursion, new_recurse, sound_recurse, is_allowed, flag. simpl.
  rewrite !length_app. simpl. repeat split; try done; try lia.
  rewrite lookup_app_l by (rewrite length_app; simpl; lia).
  by rewrite list_lookup_middle.
Qed.

Lemma user_call (uf : U → U * list user_request) (invoke : invoker U)
    (s : schedulable) (r : recurse) (w : world) :
  sound_recurse r w → polite (uf (user w)).2 →
  ∃ w1, user_function uf invoke (set_recursed s r) (recurse_reset r w) = Returned w1 ∧
        subs w1 = subs w ∧ times w1 = times w ∧ posted w1 = posted w ∧
        user w1 = (uf (user w)).1 ∧ calls w1 = calls w ++ [user w] ∧
        is_requested r w1 = wants (uf (user w)).2 ∧
        is_allowed r w1 = is_allowed r w ∧ sound_recurse r w1.
Proof.
  intros (Hown & Hlen & Hne) Hp. unfold user_function.
  change (user (recurse_reset r w)) with (user w).
  destruct (uf (user w)) as [u' qs] eqn:E. simpl in Hp.
  destruct (user_steps_polite (set_recursed s r) (isrequested r) qs
              (with_user (recurse_reset r w) u' (calls (recurse_reset r w) ++ [user w])))
    as (w1 & E1 & H1 & H2 & H3 & H4 & H5 & H6);
    [simpl; unfold get_recursed; by rewrite Hown | done |].
  exists w1. rewrite E1. simpl in *.
  assert (Hl1 : length (flags w1) = length (flags w)).
  { rewrite H6. destruct (wants qs); by rewrite ?length_insert. }
  repeat split; try done.
  - unfold is_requested, flag. rewrite H6. destruct (wants qs).
    + rewrite list_lookup_insert_eq; [done|]. by rewrite length_insert.
    + by rewrite list_lookup_insert_eq.
  - unfold is_allowed, flag. rewrite H6. destruct (wants qs);
      by rewrite ?list_lookup_insert_ne by done.
  - by rewrite Hl1.
Qed.

Lemma schedule_keeps_revoked (s : schedulable) (w w' : world) :
  sub_is_subscribed (subs w) (worker_lifetime (controller s)) = true →
  schedule s w = Returned w' → revoked (subs w') = revoked (subs w).
Proof.
  intros Hq. unfold schedule. destruct (is_subscribed s w); [|by intros [= <-]].
  unfold worker_schedule. destruct (worker_inner (controller s)) as [i|] eqn:Hi.
  - destruct (schedule_rebind_effect (controller s) None s w i Hi)
      as (w1 & E & _ & _ & _ & _ & _ & _ & _ & Hr).
    rewrite E. intros [= <-]. by apply Hr.
  - unfold schedule_rebind, inner_schedule.
    destruct (make_schedulable s (controller s) w). by rewrite Hi.
Qed.

(** With [allowed] true the repetitions happen inside one call of the
    action: [k + 1] calls of the function, nothing posted. *)
Lemma tail_iterates (uf : U → U * list user_request) (invoke : invoker U)
    (s : schedulable) (r : recurse) (k : nat) :
  ∀ (n : nat) (w : world),
    sound_recurse r w → is_allowed r w = true → is_subscribed s w = true →
    behaves uf k (user w) → (k < n)%nat →
    ∃ w', action_loop (user_function uf invoke) n (set_recursed s r) r w = Returned w' ∧
          calls w' = calls w ++ entered uf k (user w) ∧
          user w' = left_by uf k (user w) ∧
          posted w' = posted w ∧ subs w' = subs w ∧ times w' = times w.
Proof.
  induction k as [|k IH]; intros n w Hr Ha Hs Hb Hn;
    (destruct n as [|n]; [lia|]); destruct Hb as [Hp Hb];
    destruct (user_call uf invoke s r w Hr Hp)
      as (w1 & E & H1 & H2 & H3 & H4 & H5 & H6 & H7 & H8);
    cbn [action_loop];
    change (is_subscribed (set_recursed s r) w) with (is_subscribed s w);
    rewrite Hs, E, H6, H7, Ha.
  - rewrite Hb. simpl. exists w1. by repeat split.
  - destruct Hb as [Hw Hb]. rewrite Hw. simpl.
    destruct (IH n w1) as (w' & E' & G1 & G2 & G3 & G4 & G5); try done.
    + by rewrite H7.
    + unfold is_subscribed. by rewrite H1.
    + by rewrite H4.
    + lia.
    + exists w'. rewrite E', G1, G2, G3, G4, G5, H5, H4, H3, H1, H2.
      repeat split; try done. by rewrite <- app_assoc.
Qed.

(** The schedulables that rebinding [s] to its own worker produces. *)
Definition rebound (s n : schedulable) : Prop :=
  lifetime n = lifetime s ∧ controller n = controller s ∧
  activity n = activity s ∧ scoped n = scoped s.

Lemma invoke_made_action (heap : list (action_type U)) (p : nat)
    (fn : invoker U → schedulable → world → outcome)
    (k : nat) (s : schedulable) (r : recurse) (w : world) :
  deref heap p = Some (make_action fn) → activity s = mk_action (Some p) →
  is_subscribed s w = true →
  schedulable_invoke heap (S k) s r w =
    match action_loop (fn (schedulable_invoke heap k)) k (set_recursed s r) r w with
    | Thrown w' => Thrown (unsubscribe s w')
    | o => o
    end.
Proof.
  intros Hd Ha Hs. cbn [schedulable_invoke]. rewrite Hs. cbn [negb].
  unfold action_call. by rewrite Ha; cbn [action_inner]; rewrite Hd.
Qed.

Section repeating.
Context (heap : list (action_type U)) (uf : U → U * list user_request).
Context (p i : nat) (s : schedulable).
Context (Hheap : deref heap p = Some (make_action (user_function uf))).
Context (Hact : activity s = mk_action (Some p)).
Context (Hinner : worker_inner (controller s) = Some i).

(** The scopes of the schedulable and of its worker are active. *)
Definition alive (w : world) : Prop :=
  sub_is_subscribed (subs w) (lifetime s) = true ∧
  sub_is_subscribed (subs w) (worker_lifetime (controller s)) = true.

Lemma alive_same_revoked (w w' : world) :
  revoked (subs w') = revoked (subs w) → alive w → alive w'.
Proof. unfold alive, sub_is_subscribed. by intros ->. Qed.

(** One dispatch with [allowed] false: one call of the function, and the
    schedulable posted again exactly when the call requested it. *)
Lemma dispatch_requeues (fuel : nat) (n : schedulable) (w : world) :
  rebound s n → alive w → polite (uf (user w)).2 →
  ∃ w', dispatch heap (S (S fuel)) false n w = Returned w' ∧
        calls w' = calls w ++ [user w] ∧ user w' = (uf (user w)).1 ∧
        alive w' ∧
        if wants (uf (user w)).2
        then ∃ n', rebound s n' ∧ posted w' = posted w ++ [mk_submission i None n']
        else posted w' = posted w.
Proof.
  intros (Hl & Hc & Ha & Hsc) [Hs Hq] Hp.
  assert (Hsn : is_subscribed n w = true) by (unfold is_subscribed; by rewrite Hl).
  unfold dispatch. rewrite Hsn.
  pose proof (new_recursion_spec false w) as (Hr & Hal & G1 & G2 & G3 & G4 & G5).
  destruct (new_recursion false w) as [rn w1]. cbn [fst snd] in *.
  assert (Hsn1 : is_subscribed n w1 = true) by (unfold is_subscribed; by rewrite G1, Hl).
  rewrite (invoke_made_action heap p (user_function uf)); [|done|congruence|done].
  rewrite <- G4 in Hp.
  destruct (user_call uf (schedulable_invoke heap (S fuel)) n (get_recurse rn) w1 Hr Hp)
    as (w2 & E & H1 & H2 & H3 & H4 & H5 & H6 & H7 & H8).
  cbn [action_loop].
  change (is_subscribed (set_recursed n (get_recurse rn)) w1) with (is_subscribed n w1).
  rewrite Hsn1, E, H6, H7, Hal. cbn [negb orb].
  rewrite G4 in *. destruct (wants (uf (user w)).2) eqn:Hw.
  - assert (Hs2 : is_subscribed (set_recursed n (get_recurse rn)) w2 = true).
    { unfold is_subscribed. simpl. by rewrite H1, G1, Hl. }
    destruct (schedule_posts_once (set_recursed n (get_recurse rn)) w2 i Hs2)
      as (n' & w3 & E3 & P & K1 & K2 & K3 & K4 & K5 & K6 & _).
    { simpl. by rewrite Hc. }
    assert (Hrev : revoked (subs w3) = revoked (subs w2)).
    { eapply schedule_keeps_revoked; [|exact E3]. simpl.
      by rewrite H1, G1, Hc. }
    rewrite E3. exists w3. simpl in *.
    rewrite K6, K5, H5, H4, G5. do 3 (split; [done|]). split.
    + apply (alive_same_revoked w); [|done]. by rewrite Hrev, H1, G1.
    + exists n'. split; [|by rewrite P, H3, G3].
      unfold rebound, get_worker, get_action, get_subscription in *.
      repeat split; congruence.
  - exists w2. rewrite H5, H4, H3, G5, G3. do 3 (split; [done|]).
    split; [|done].
    apply (alive_same_revoked w); [|done]. by rewrite H1, G1.
Qed.

Lemma run_loop_step (fuel : nat) (allowed : bool) (cursor : nat) (w : world) :
  run_loop heap (S fuel) allowed cursor w =
    match posted w !! cursor with
    | None => Returned w
    | Some e =>
        match dispatch heap fuel allowed (sub_what e) w with
        | Returned w' => run_loop heap fuel allowed (S cursor) w'
        | o => o
        end
    end.
Proof. reflexivity. Qed.

(** With [allowed] false every repetition goes through the queue:
    [k + 1] dispatches, each with one call of the function. *)
Lemma requeue_chain (k : nat) :
  ∀ (fuel cursor : nat) (e : submission) (w : world),
    rebound s (sub_what e) → alive w →
    posted w !! cursor = Some e → length (posted w) = S cursor →
    behaves uf k (user w) → (k + 3 ≤ fuel)%nat →
    ∃ w', run_loop heap fuel false cursor w = Returned w' ∧
          calls w' = calls w ++ entered uf k (user w) ∧
          user w' = left_by uf k (user w) ∧
          length (posted w') = (length (posted w) + k)%nat.
Proof.
  induction k as [|k IH]; intros fuel cursor e w Hn Hal He Hlen Hb Hf;
    (destruct fuel as [|[|[|fuel]]]; [lia..|]); destruct Hb as [Hp Hb];
    destruct (dispatch_requeues fuel (sub_what e) w Hn Hal Hp)
      as (w1 & E & C1 & C2 & C3 & C4);
    rewrite run_loop_step, He, E.
  - rewrite Hb in C4. rewrite run_loop_step.
    rewrite C4, (lookup_ge_None_2 _ (S cursor)) by lia.
    exists w1. rewrite C4. repeat split; (done || lia).
  - destruct Hb as [Hw Hb]. rewrite Hw in C4. destruct C4 as (n' & Hn' & P).
    destruct (IH (S (S fuel)) (S cursor) (mk_submission i None n') w1)
      as (w' & E' & D1 & D2 & D3); try done.
    + rewrite P, <- Hlen. by rewrite list_lookup_middle.
    + rewrite P, length_app. simpl. lia.
    + by rewrite C2.
    + lia.
    + exists w'. rewrite E', D1, D2, D3, C1, C2, P, length_app. simpl.
      repeat split; try done; [by rewrite <- app_assoc | lia].
Qed.

(** With [allowed] true one dispatch makes all [k + 1] calls. *)
Lemma tail_dispatch (k fuel cursor : nat) (e : submission) (w : world) :
  rebound s (sub_what e) → alive w →
  posted w !! cursor = Some e → length (posted w) = S cursor →
  behaves uf k (user w) → (k + 3 ≤ fuel)%nat →
  ∃ w', run_loop heap fuel true cursor w = Returned w' ∧
        calls w' = calls w ++ entered uf k (user w) ∧
        user w' = left_by uf k (user w) ∧
        posted w' = posted w.
Proof.
  intros (Hl & Hc & Ha & Hsc) [Hs Hq] He Hlen Hb Hf.
  destruct fuel as [|[|[|fuel]]]; [lia..|].
  assert (Hsn : is_subscribed (sub_what e) w = true)
    by (unfold is_subscribed; by rewrite Hl).
  rewrite run_loop_step, He. unfold dispatch. rewrite Hsn.
  pose proof (new_recursion_spec true w) as (Hr & Hal & G1 & G2 & G3 & G4 & G5).
  destruct (new_recursion true w) as [rn w1]. cbn [fst snd] in *.
  assert (Hsn1 : is_subscribed (sub_what e) w1 = true)
    by (unfold is_subscribed; by rewrite G1, Hl).
  rewrite (invoke_made_action heap p (user_function uf)); [|done|congruence|done].
  rewrite <- G4 in Hb.
  destruct (tail_iterates uf (schedulable_invoke heap (S fuel)) (sub_what e)
              (get_recurse rn) k (S fuel) w1 Hr Hal Hsn1 Hb)
    as (w2 & E & H1 & H2 & H3 & H4 & H5); [lia|].
  rewrite E, run_loop_step, H3, G3, (lookup_ge_None_2 _ (S cursor)) by lia.
  exists w2. by rewrite H1, H2, H3, G3, G4, G5.
Qed.

End repeating.

(** C6. A function that requests recursion on [k] calls in a row and not
    on the next, and never cancels or throws, is run by a dispatcher that
    allows tail iteration and by one that does not.  Both runs end, and
    the function is entered at the same states in the same order, [k + 1]
    times, and leaves the same state; with tail iteration nothing is
    posted, without it each of the [k] repetitions is one more entry
    posted to the worker. *)
Theorem tail_iteration_same_as_requeueing
    (heap : list (action_type U)) (uf : U → U * list user_request)
    (p i : nat) (s : schedulable) (k fuel cursor : nat) (e : submission)
    (w : world)
    (Hheap : deref heap p = Some (make_action (user_function uf)))
    (Hact : activity s = mk_action (Some p))
    (Hinner : worker_inner (controller s) = Some i)
    (Hactive : is_subscribed s w = true)
    (Hworker : sub_is_subscribed (subs w) (worker_lifetime (controller s)) = true)
    (Hentry : posted w !! cursor = Some e)
    (Hwhat : sub_what e = s)
    (Hlast : length (posted w) = S cursor)
    (Hf : behaves uf k (user w))
    (Hfuel : (k + 3 ≤ fuel)%nat) :
  ∃ wa wb,
    run_loop heap fuel true cursor w = Returned wa ∧
    run_loop heap fuel false cursor w = Returned wb ∧
    calls wa = calls w ++ entered uf k (user w) ∧
    calls wb = calls wa ∧ user wb = user wa ∧
    length (posted wa) = length (posted w) ∧
    length (posted wb) = (length (posted w) + k)%nat.
Proof.
  assert (Hn : rebound s (sub_what e)) by (rewrite Hwhat; by repeat split).
  assert (Hal : alive s w) by by split.
  destruct (tail_dispatch heap uf p s Hheap Hact k fuel cursor e w)
    as (wa & Ea & A1 & A2 & A3); try done.
  destruct (requeue_chain heap uf p i s Hheap Hact Hinner k fuel cursor e w)
    as (wb & Eb & B1 & B2 & B3); try done.
  exists wa, wb. rewrite Ea, Eb, A1, B1, A2, B2, A3, B3. by repeat split.
Qed.

(** *** Periodic schedules *)

Lemma schedule_rebind_posts (q : worker) (when : option Z) (s : schedulable)
    (w : world) (i : nat) :
  worker_inner q = Some i →
  ∃ n w', schedule_rebind q when s w = Returned w' ∧
          posted w' = posted w ++ [mk_submission i when n] ∧
          lifetime n = lifetime s ∧ controller n = q ∧
          activity n = activity s ∧ scoped n = scoped s ∧
          user w' = user w ∧ calls w' = calls w ∧ flags w' = flags w ∧
          times w' = times w ∧
          (sub_is_subscribed (subs w) (worker_lifetime q) = true →
           revoked (subs w') = revoked (subs w)).
Proof.
  intros Hi.
  pose proof (make_schedulable_fields s q w) as (H1 & H2 & H3 & H4 & _).
  destruct (schedule_rebind_effect q when s w i Hi)
    as (w' & E & P & Hu & Hc & Hf & Ht & _ & _ & Hr).
  exists (make_schedulable s q w).1, w'. by repeat split.
Qed.

Lemma timed_snoc (l : list submission) (e : submission) :
  timed (l ++ [e]) =
    match sub_when e with Some _ => timed l ++ [e] | None => timed l end.
Proof.
  unfold timed. rewrite filter_app, filter_cons, filter_nil.
  destruct (sub_when e); simpl; by rewrite ?app_nil_r.
Qed.

Lemma deadlines_snoc (l : list submission) (e : submission) :
  deadlines (l ++ [e]) =
    match sub_when e with Some t => deadlines l ++ [t] | None => deadlines l end.
Proof.
  unfold deadlines. rewrite omap_app. simpl.
  destruct (sub_when e); simpl; [done | by rewrite app_nil_r].
Qed.

Lemma user_call_frame (uf : U → U * list user_request) (invoke : invoker U)
    (s : schedulable) (r : recurse) (w w1 : world) :
  sound_recurse r w → polite (uf (user w)).2 →
  user_function uf invoke (set_recursed s r) (recurse_reset r w) = Returned w1 →
  length (flags w1) = length (flags w) ∧
  ∀ a, a ≠ isrequested r → flag w1 a = flag w a.
Proof.
  intros (Hown & Hlen & Hne) Hp. unfold user_function.
  change (user (recurse_reset r w)) with (user w).
  destruct (uf (user w)) as [u' qs] eqn:E. simpl in Hp.
  destruct (user_steps_polite (set_recursed s r) (isrequested r) qs
              (with_user (recurse_reset r w) u' (calls (recurse_reset r w) ++ [user w])))
    as (w' & E1 & _ & _ & _ & _ & _ & H6);
    [simpl; unfold get_recursed; by rewrite Hown | done |].
  rewrite E1. intros [= <-]. simpl in H6. split.
  - rewrite H6. destruct (wants qs); by rewrite ?length_insert.
  - intros a Ha. unfold flag. rewrite H6.
    destruct (wants qs); by rewrite ?list_lookup_insert_ne by done.
Qed.

Lemma new_recursion_frame (b : bool) (w : world) :
  let r := get_recurse (new_recursion b w).1 in
  let w1 := (new_recursion b w).2 in
  (length (flags w) ≤ isrequested r)%nat ∧
  ∀ a, (a < length (flags w))%nat → flag w1 a = flag w a.
Proof.
  unfold new_recursion, new_recurse, flag. simpl.
  split; [rewrite length_app; simpl; lia|].
  intros a Ha. by rewrite <- app_assoc, lookup_app_l.
Qed.

Lemma action_loop_step (fn : schedulable → world → outcome) (n : nat)
    (s : schedulable) (r : recurse) (w : world) :
  action_loop fn (S n) s r w =
    if is_subscribed s w then
      match fn s (recurse_reset r w) with
      | Returned w' =>
          if negb (is_allowed r w') || negb (is_requested r w') then
            if is_requested r w' then schedule s w' else Returned w'
          else action_loop fn n s r w'
      | o => o
      end
    else Returned w.
Proof. reflexivity. Qed.

Section periodic.
Context (heap : list (action_type U)) (work : U → U * list user_request).
Context (pw p i target : nat) (q : worker) (act : schedulable) (period : Z).
Context (Hwork : deref heap pw = Some (make_action (user_function work))).
Context (Hper : deref heap p
                = Some (make_action (periodic_function target period act))).
Context (Hq : worker_inner q = Some i).
Context (Hact_a : activity act = mk_action (Some pw)).
Context (Hact_c : controller act = q).
Context (Hpolite : ∀ u, polite (work u).2).

(** Nothing was cancelled: the scope of the work and that of the worker
    are active. *)
Definition live (w : world) : Prop :=
  sub_is_subscribed (subs w) (lifetime act) = true ∧
  sub_is_subscribed (subs w) (worker_lifetime q) = true.

Lemma live_same_revoked (w w' : world) :
  revoked (subs w') = revoked (subs w) → live w → live w'.
Proof. unfold live, sub_is_subscribed. by intros ->. Qed.

(** The body of a tick: the work is called once; if it asks to be run
    again it is posted without a deadline. *)
Lemma activity_runs (k : nat) (r2 : recurse) (w : world) :
  live w → sound_recurse r2 w → is_allowed r2 w = false →
  ∃ w', schedulable_invoke heap (S (S k)) act r2 w = Returned w' ∧
        calls w' = calls w ++ [user w] ∧ times w' = times w ∧
        revoked (subs w') = revoked (subs w) ∧
        timed (posted w') = timed (posted w) ∧
        deadlines (posted w') = deadlines (posted w) ∧
        ∀ a, a ≠ isrequested r2 → flag w' a = flag w a.
Proof.
  intros [Hl Hw] Hr Hal.
  assert (Hs : is_subscribed act w = true) by done.
  rewrite (invoke_made_action heap pw (user_function work)); [|done..].
  rewrite action_loop_step.
  change (is_subscribed (set_recursed act r2) w) with (is_subscribed act w).
  rewrite Hs.
  destruct (user_call work (schedulable_invoke heap (S k)) act r2 w Hr (Hpolite _))
    as (w1 & E & H1 & H2 & H3 & H4 & H5 & H6 & H7 & H8).
  destruct (user_call_frame work _ act r2 w w1 Hr (Hpolite _) E) as [_ Hfr].
  rewrite E, H6, H7, Hal. cbn [negb orb].
  destruct (wants (work (user w)).2).
  - unfold schedule.
    change (is_subscribed (set_recursed act r2) w1) with (is_subscribed act w1).
    assert (Hs1 : is_subscribed act w1 = true) by (unfold is_subscribed; by rewrite H1).
    rewrite Hs1. unfold worker_schedule.
    change (controller (set_recursed act r2)) with (controller act). rewrite Hact_c.
    destruct (schedule_rebind_posts q None (set_recursed act r2) w1 i Hq)
      as (n & w2 & E2 & P & _ & _ & _ & _ & K1 & K2 & K3 & K4 & K5).
    rewrite E2. exists w2.
    rewrite K2, K4, P, timed_snoc, deadlines_snoc, H5, H2, H3. simpl.
    repeat split; try done.
    + rewrite K5 by by rewrite H1. by rewrite H1.
    + intros a Ha. unfold flag. rewrite K3. by apply Hfr.
  - exists w1. rewrite H5, H2, H3, H1. by repeat split.
Qed.

(** One tick: the body runs once, the target moves on by one period and
    the tick is posted again at the new target. *)
Lemma tick (k : nat) (allowed : bool) (n : schedulable) (w : world) (t : Z) :
  lifetime n = lifetime act → controller n = q → activity n = mk_action (Some p) →
  live w → times w !! target = Some t →
  ∃ n' w', dispatch heap (S (S (S k))) allowed n w = Returned w' ∧
           live w' ∧ times w' !! target = Some (time_add t period) ∧
           timed (posted w')
             = timed (posted w) ++ [mk_submission i (Some (time_add t period)) n'] ∧
           deadlines (posted w') = deadlines (posted w) ++ [time_add t period] ∧
           lifetime n' = lifetime act ∧ controller n' = q ∧
           activity n' = mk_action (Some p) ∧
           calls w' = calls w ++ [user w].
Proof.
  intros Hnl Hnc Hna Hlive Ht.
  assert (Hs : is_subscribed n w = true).
  { unfold is_subscribed. rewrite Hnl. apply Hlive. }
  unfold dispatch. rewrite Hs.
  pose proof (new_recursion_spec allowed w) as (Hr & _ & G1 & G2 & G3 & G4 & G5).
  destruct (new_recursion allowed w) as [rn w1]. cbn [fst snd] in *.
  set (r := get_recurse rn) in *.
  assert (Hs1 : is_subscribed n w1 = true) by (unfold is_subscribed; by rewrite G1).
  rewrite (invoke_made_action heap p (periodic_function target period act));
    [|done..].
  rewrite action_loop_step.
  change (is_subscribed (set_recursed n r) w1) with (is_subscribed n w1).
  rewrite Hs1. unfold periodic_function at 1. cbv zeta.
  set (w1' := recurse_reset r w1).
  assert (Hc0 : flag w1' (isrequested r) = false).
  { apply flag_set. apply Hr. }
  assert (Hlen1 : (isrequested r < length (flags w1'))%nat).
  { unfold w1', recurse_reset, set_flag. simpl. rewrite length_insert. apply Hr. }
  pose proof (new_recursion_spec false w1') as (Hr2 & Hal2 & F1 & F2 & F3 & F4 & F5).
  pose proof (new_recursion_frame false w1') as (Hfresh & Hold).
  destruct (new_recursion false w1') as [rn2 w2]. cbn [fst snd] in *.
  assert (Hlive2 : live w2).
  { apply (live_same_revoked w); [|done]. by rewrite F1, <- G1. }
  destruct (activity_runs k (get_recurse rn2) w2 Hlive2 Hr2 Hal2)
    as (w3 & E3 & A1 & A2 & A3 & A4 & A5 & A6).
  rewrite E3.
  assert (Ht3 : times w3 !! target = Some t).
  { rewrite A2, F2. unfold w1'. simpl. by rewrite G2. }
  rewrite Ht3. change (default 0 (Some t)) with t.
  set (self := schedulable_copy (set_recursed n r)).
  set (w3' := with_times w3 (<[target:=time_add t period]> (times w3))).
  assert (Hs3 : is_subscribed self w3' = true).
  { unfold is_subscribed, sub_is_subscribed. simpl. rewrite A3, Hnl.
    apply Hlive2. }
  unfold schedule_at. rewrite Hs3. unfold worker_schedule_at.
  change (controller self) with (controller n).
  rewrite Hnc.
  destruct (schedule_rebind_posts q (Some (time_add t period)) self w3' i Hq)
    as (n' & w4 & E4 & P & K0 & K1 & K2 & _ & K3 & K4 & K5 & K6 & K7).
  rewrite E4. cbn [leaving].
  pose proof (destroy_keeps self w4) as (D1 & D2 & D3 & D4 & D5 & D6 & D7 & _).
  cbv zeta in D1, D2, D3, D4, D5, D6, D7.
  set (w5 := schedulable_destroy self w4) in *.
  assert (Hreq : is_requested r w5 = false).
  { unfold is_requested, flag. rewrite D5, K5. simpl.
    change (default false (flags w3 !! isrequested r)) with (flag w3 (isrequested r)).
    rewrite A6 by lia. rewrite Hold by done. exact Hc0. }
  rewrite Hreq. cbn [negb]. rewrite orb_true_r.
  assert (Hrev : revoked (subs w5) = revoked (subs w)).
  { rewrite D7, K7; simpl; [by rewrite A3, F1, <- G1|].
    unfold sub_is_subscribed. rewrite A3. apply Hlive2. }
  exists n', w5. split; [done|]. split; [by apply (live_same_revoked w)|].
  split.
  { rewrite D2, K6. simpl. apply list_lookup_insert_eq.
    by apply lookup_lt_Some in Ht3. }
  rewrite D1, D3, P, timed_snoc, deadlines_snoc. simpl.
  rewrite A4, A5, F3, K4. simpl. rewrite A1, F5, F4. unfold w1'. simpl.
  rewrite G3, G4, G5. simpl in K0, K2. repeat split; congruence.
Qed.

(** Any number of ticks in a row: every tick adds the period to the target
    in 64-bit arithmetic. *)
Lemma ticks (k : nat) (allowed : bool) (n : nat) :
  ∀ (t : Z) (pre : list submission) (e : submission) (w : world),
    live w → times w !! target = Some t → timed (posted w) = pre ++ [e] →
    lifetime (sub_what e) = lifetime act → controller (sub_what e) = q →
    activity (sub_what e) = mk_action (Some p) →
    ∃ wn, run_ticks heap (S (S (S k))) allowed (length pre) n w = Returned wn ∧
          deadlines (posted wn) = deadlines (posted w) ++
            ((fun m : nat => wrap64 (t + Z.of_nat m * period)) <$> seq 1 n) ∧
          length (calls wn) = (length (calls w) + n)%nat.
Proof.
  induction n as [|n IH]; intros t pre e w Hlive Ht Hpre Hl Hc Ha.
  - exists w. simpl. rewrite app_nil_r. split; [done|]. split; [done|lia].
  - cbn [run_ticks]. rewrite Hpre, list_lookup_middle by done.
    destruct (tick k allowed (sub_what e) w t Hl Hc Ha Hlive Ht)
      as (n' & w' & E & L' & T' & P' & D' & Hl' & Hc' & Ha' & C').
    rewrite E.
    destruct (IH (time_add t period) (pre ++ [e])
                (mk_submission i (Some (time_add t period)) n') w')
      as (wn & En & Dn & Cn); try done.
    { by rewrite P', Hpre. }
    rewrite length_app in En. simpl in En. rewrite Nat.add_1_r in En.
    exists wn. split; [done|]. split.
    + rewrite Dn, D', <- app_assoc. f_equal. cbn [seq fmap list_fmap app].
      f_equal; [unfold time_add; f_equal; lia|].
      rewrite <- (fmap_S_seq 1), <- list_fmap_compose.
      apply list_fmap_ext. intros _ m _. simpl. unfold time_add.
      rewrite wrap64_add_l. f_equal. lia.
    + rewrite Cn, C', length_app. simpl. lia.
Qed.

End periodic.

(** C3 (as the code has it). [schedule_periodically(initial, period, work)]
    on a worker, with nothing cancelled and a work function that neither
    cancels nor throws: the call posts the first tick at [initial], and
    when the ticks are then run one after the other, however long each
    body takes and whether or not tail iteration is allowed, tick [m] is
    posted at the deadline that [m] additions of [period] to [initial]
    give in the 64-bit arithmetic of the clock, for [m = 1, ..., n], and
    the body has run once per tick.  As long as [initial + m * period] is
    representable this deadline is [initial + m * period]. *)
Theorem periodic_deadlines_are_additive
    (heap : list (action_type U)) (work : U → U * list user_request)
    (pw p i : nat) (q : worker) (scbl : schedulable) (initial period : Z)
    (w0 : world) (n fuel : nat) (allowed : bool)
    (Hq : worker_inner q = Some i)
    (Hwork : deref heap pw = Some (make_action (user_function work)))
    (Hscbl : activity scbl = mk_action (Some pw))
    (Hper : deref heap p = Some (make_action
              (periodic_function (periodic_target w0) period
                 (periodic_activity q scbl initial w0).1)))
    (Hactive : is_subscribed scbl w0 = true)
    (Hworker : sub_is_subscribed (subs w0) (worker_lifetime q) = true)
    (Hpolite : ∀ u, polite (work u).2)
    (Hfuel : (3 ≤ fuel)%nat) :
  ∃ w1 wn,
    schedule_periodically q initial period scbl p w0 = Returned w1 ∧
    deadlines (posted w1) = deadlines (posted w0) ++ [initial] ∧
    run_ticks heap fuel allowed (length (timed (posted w0))) n w1 = Returned wn ∧
    deadlines (posted wn) = deadlines (posted w0) ++
      initial :: ((fun m : nat => wrap64 (initial + Z.of_nat m * period)) <$> seq 1 n) ∧
    ((∀ m : nat, (1 ≤ m ≤ n)%nat → in_range (initial + Z.of_nat m * period)) →
     deadlines (posted wn) = deadlines (posted w0) ++
       ((fun m : nat => initial + Z.of_nat m * period) <$> seq 0 (S n))) ∧
    length (calls wn) = (length (calls w0) + n)%nat.
Proof.
  destruct fuel as [|[|[|k]]]; [lia..|].
  unfold schedule_periodically, schedule_periodically_rebind.
  set (target := periodic_target w0) in *.
  unfold periodic_activity in *.
  set (w0' := with_times w0 (times w0 ++ [initial])) in *.
  pose proof (make_schedulable_fields scbl q w0')
    as (A1 & A2 & A3 & _ & _ & A4 & A5 & A6 & _ & _ & _ & _ & A7).
  destruct (make_schedulable scbl q w0') as [act w2]. cbn [fst snd] in *.
  specialize (A7 Hworker).
  pose proof (make_schedulable_fn_fields act p w2)
    as (B1 & B2 & B3 & _ & _ & B4 & B5 & B6 & _ & _ & _ & B7).
  destruct (make_schedulable_fn act p w2) as [periodic w3]. cbn [fst snd] in *.
  rewrite A2 in B7, B2.
  assert (Hw2 : sub_is_subscribed (subs w2) (worker_lifetime q) = true).
  { unfold sub_is_subscribed in *. by rewrite A7. }
  specialize (B7 Hw2).
  pose proof (destroy_keeps (schedulable_copy act) w3)
    as (C1 & C2 & C3 & _ & _ & _ & C7 & _).
  cbv zeta in C1, C2, C3, C7.
  set (w4 := schedulable_destroy (schedulable_copy act) w3) in *.
  assert (Ht4 : times w4 !! target = Some initial).
  { rewrite C2, B5, A5. unfold w0', target, periodic_target. simpl.
    by rewrite list_lookup_middle. }
  rewrite Ht4. change (default 0 (Some initial)) with initial.
  unfold inner_schedule. rewrite Hq. cbn [leaving].
  set (w5 := with_posted w4 _).
  pose proof (destroy_keeps periodic w5) as (D1 & D2 & D3 & _ & _ & _ & D7 & _).
  cbv zeta in D1, D2, D3, D7.
  pose proof (destroy_keeps act (schedulable_destroy periodic w5))
    as (E1 & E2 & E3 & _ & _ & _ & E7 & _).
  cbv zeta in E1, E2, E3, E7.
  set (w1 := schedulable_destroy act (schedulable_destroy periodic w5)) in *.
  assert (P1 : posted w1
               = posted w0 ++ [mk_submission i (Some initial) periodic]).
  { rewrite E1, D1. unfold w5. simpl. by rewrite C1, B4, A4. }
  assert (Hlive : live q act w1).
  { unfold live, sub_is_subscribed in *. rewrite E7, D7. unfold w5. simpl.
    rewrite C7, B7, A7, A1. simpl. split; [|done]. exact Hactive. }
  destruct (ticks heap work pw p i target q act period
              Hwork Hper Hq (eq_trans A3 Hscbl) A2 Hpolite k allowed n initial
              (timed (posted w0)) (mk_submission i (Some initial) periodic) w1)
    as (wn & En & Dn & Cn); try done.
  { rewrite E2, D2. unfold w5. simpl. exact Ht4. }
  { by rewrite P1, timed_snoc. }
  assert (D0 : deadlines (posted w1) = deadlines (posted w0) ++ [initial]).
  { by rewrite P1, deadlines_snoc. }
  assert (Dw : deadlines (posted wn) = deadlines (posted w0) ++
            initial :: ((fun m : nat => wrap64 (initial + Z.of_nat m * period))
                          <$> seq 1 n)).
  { by rewrite Dn, D0, <- app_assoc. }
  exists w1, wn. split; [done|]. split; [done|]. split; [done|].
  split; [done|]. split.
  - intros Hfit. rewrite Dw. f_equal. cbn [seq fmap list_fmap].
    f_equal; [lia|]. apply list_fmap_ext. intros j m Hm.
    apply lookup_seq in Hm as [-> Hlt]. apply wrap64_fits, Hfit. lia.
  - rewrite Cn, E3, D3. unfold w5. simpl. by rewrite C3, B6, A6.
Qed.

End facts.

(** *** Instances *)

(** A scoped schedulable of another worker, registered there under
    token [0]. *)
Definition scoped_elsewhere : schedulable :=
  mk_schedulable 5%nat (mk_worker (Some 9%nat) 2%nat) action_empty true
                 (Some 0%nat) None.
Definition world_registered : world nat :=
  mk_world (mk_subscriptions ∅ [(0%nat, 2%nat, 5%nat)] 1) [] [] 0 [] 0%nat [].

Lemma worker_schedule_rebinds_witness :
  ∃ n w1, get_worker n = worker0 ∧ get_subscription n = 5%nat ∧
          scoped n = true ∧ action_scope n = Some 1%nat ∧
          worker_schedule worker0 scoped_elsewhere world_registered = Returned w1 ∧
          posted w1 = [mk_submission 7%nat None n].
Proof.
  pose proof (worker_schedule_rebinds worker0 scoped_elsewhere 0 world_registered)
    as H.
  destruct (make_schedulable scoped_elsewhere worker0 world_registered) as [n w'].
  destruct H as (_ & _ & Hw & _ & _ & Hl & Hs & _ & Hreg & _ & _ & Hpost).
  destruct Hreg as [Ht _];
    [reflexivity | reflexivity | intros k [= <-]; simpl; lia|].
  destruct (Hpost 7%nat eq_refl) as (w1 & _ & E1 & P1 & _).
  exists n, w1. repeat split; assumption.
Defined.

(** The recursion context a strategy builds on [world0]. *)
Definition recurse0 : recurse := get_recurse (new_recursion true world0).1.
Definition world1 : world nat := (new_recursion true world0).2.

(** The empty action invoked: the process aborts, it does not return. *)
Lemma empty_action_is_not_a_noop :
  action_call [] action_empty never_invoke 1%nat
    (schedulable_shared worker0 action_empty) recurse0 world1 = Aborted ∧
  action_call [] action_empty never_invoke 1%nat
    (schedulable_shared worker0 action_empty) recurse0 world1 ≠ Returned world1.
Proof. split; [reflexivity | discriminate]. Qed.

(** An action that does nothing, at address 1. *)
Definition heap_idle : list (action_type nat) :=
  [make_action (user_function (fun u => (u, [])))].
Definition idle : schedulable := schedulable_shared worker0 (mk_action (Some 1%nat)).

(** A schedulable whose action returns is still subscribed afterwards. *)
Lemma invoke_returning_stays_subscribed :
  is_subscribed idle world1 = true ∧
  ∃ w', schedulable_invoke heap_idle 3%nat idle recurse0 world1 = Returned w' ∧
        is_subscribed idle w' = true.
Proof. split; [reflexivity|]. eexists. split; reflexivity. Qed.

(** An action that throws, at address 1. *)
Definition heap_throw : list (action_type nat) :=
  [make_action (user_function (fun u => (u, [Throw])))].

Lemma schedulable_invoke_detaches_on_exception_witness :
  ∃ w', schedulable_invoke heap_throw 3%nat idle recurse0 world1 = Thrown w' ∧
        is_subscribed idle w' = false.
Proof.
  destruct (schedulable_invoke_detaches_on_exception heap_throw 2%nat idle recurse0 world1)
    as (_ & H & _).
  destruct (H eq_refl (with_user (recurse_reset recurse0 world1) 0%nat [0%nat]) eq_refl)
    as (H1 & H2 & _).
  eexists. split; [exact H1 | exact H2].
Defined.

Lemma make_action_decision_table_witness :
  action_type_call (make_action (user_function (fun u : nat => (S u, [Recurse]))))
    never_invoke 1%nat idle
    (get_recurse (new_recursion false world0).1) (new_recursion false world0).2
  = schedule (set_recursed idle (get_recurse (new_recursion false world0).1))
      (with_user
         (set_flag (new_recursion false world0).2 1%nat true) 1%nat [0%nat]).
Proof.
  pose proof (make_action_decision_table
    (user_function (fun u : nat => (S u, [Recurse]))) never_invoke 0%nat idle
    (get_recurse (new_recursion false world0).1) (new_recursion false world0).2)
    as (_ & H).
  destruct (H eq_refl) as (_ & _ & H').
  destruct (H' _ eq_refl) as (_ & H2 & _).
  destruct (H2 eq_refl eq_refl) as [E _]. exact E.
Defined.

Lemma revoked_in_flight_stops_recursion_witness :
  ∃ w1, action_type_call
          (make_action (user_function (fun u : nat => (S u, [Recurse; Unsubscribe]))))
          never_invoke 2%nat idle recurse0 world1 = Returned w1 ∧
        calls w1 = [0%nat] ∧ posted w1 = [] ∧ is_requested recurse0 w1 = true.
Proof.
  eexists. split.
  - apply (revoked_in_flight_stops_recursion
             (user_function (fun u : nat => (S u, [Recurse; Unsubscribe])))
             never_invoke 0%nat idle recurse0 world1 _ eq_refl eq_refl eq_refl).
  - repeat split.
Defined.

(** A function that asks to be run again on its first two calls. *)
Definition twice_more (u : nat) : nat * list user_request :=
  (S u, if (u <? 2)%nat then [Recurse] else []).
Definition heap_twice : list (action_type nat) :=
  [make_action (user_function twice_more)].
Definition world_posted : world nat :=
  with_posted world0 [mk_submission 7%nat None idle].

Lemma twice_more_behaves : behaves twice_more 2 0%nat.
Proof.
  cbn. unfold polite. repeat split; try reflexivity.
  - constructor; [by left | constructor].
  - constructor; [by left | constructor].
  - constructor.
Qed.

Lemma tail_iteration_same_as_requeueing_witness :
  ∃ wa wb,
    run_loop heap_twice 5 true 0 world_posted = Returned wa ∧
    run_loop heap_twice 5 false 0 world_posted = Returned wb ∧
    calls wa = [0; 1; 2]%nat ∧ calls wb = [0; 1; 2]%nat ∧
    length (posted wa) = 1%nat ∧ length (posted wb) = 3%nat.
Proof.
  destruct (tail_iteration_same_as_requeueing heap_twice twice_more 1%nat 7%nat
              idle 2%nat 5%nat 0%nat (mk_submission 7%nat None idle) world_posted
              eq_refl eq_refl eq_refl eq_refl eq_refl eq_refl eq_refl eq_refl
              twice_more_behaves)
    as (wa & wb & Ea & Eb & Ca & Cb & _ & Pa & Pb).
  - simpl. lia.
  - exists wa, wb. rewrite Cb, Ca, Pa, Pb. by repeat split.
Defined.

(** The scenario of the specification: first tick at 0, period 10, and a
    body that takes 25 units of time on its first run. *)
Definition slow_first (u : nat) : nat * list user_request :=
  (S u, [Elapse (if (u =? 0)%nat then 25 else 1)]).
Definition heap_periodic : list (action_type nat) :=
  [make_action (user_function slow_first);
   make_action (periodic_function (periodic_target world0) 10
                  (periodic_activity worker0 idle 0 world0).1)].

Lemma slow_first_polite (u : nat) : polite (slow_first u).2.
Proof. constructor; [right; eauto | constructor]. Qed.

Lemma periodic_deadlines_are_additive_witness :
  ∃ w1 wn,
    schedule_periodically worker0 0 10 idle 2 world0 = Returned w1 ∧
    run_ticks heap_periodic 3 false 0 2 w1 = Returned wn ∧
    deadlines (posted wn) = [0; 10; 20].
Proof.
  destruct (periodic_deadlines_are_additive heap_periodic slow_first 1%nat 2%nat
              7%nat worker0 idle 0 10 world0 2%nat 3%nat false
              eq_refl eq_refl eq_refl eq_refl eq_refl eq_refl slow_first_polite)
    as (w1 & wn & E1 & _ & En & Dn & _).
  - lia.
  - exists w1, wn. split; [exact E1|]. split; [exact En|]. exact Dn.
Defined.

(** The same scenario evaluated: after the first tick the clock reads 25
    and the second tick is posted with deadline 10, already in the past;
    it is run next and posts the third tick with deadline 20. *)
Definition returned (o : outcome nat) : option (world nat) :=
  match o with Returned w => Some w | _ => None end.

Example periodic_late_tick_scenario :
  (w1 ← returned (schedule_periodically worker0 0 10 idle 2 world0);
   w2 ← returned (run_ticks heap_periodic 3 false 0 1 w1);
   w3 ← returned (run_ticks heap_periodic 3 false 1 1 w2);
   Some (clock w2, deadlines (posted w2), deadlines (posted w3), calls w3))
  = Some (25, [0; 10], [0; 10; 20], [0; 1]%nat).
Proof. vm_compute. reflexivity. Qed.

(** The same schedule at the end of the range of the clock: started at
    [2^63 - 1] with period 1, the second tick is posted at [- 2^63], which
    is not [initial + period]. *)
Definition heap_wrapping : list (action_type nat) :=
  [make_action (user_function slow_first);
   make_action (periodic_function (periodic_target world0) 1
                  (periodic_activity worker0 idle int64_max world0).1)].

Lemma periodic_deadline_wraps :
  (w1 ← returned (schedule_periodically worker0 int64_max 1 idle 2 world0);
   w2 ← returned (run_ticks heap_wrapping 3 false 0 1 w1);
   Some (deadlines (posted w2), calls w2))
  = Some ([int64_max; int64_min], [0]%nat) ∧
  int64_min ≠ int64_max + 1 * 1.
Proof. split; [vm_compute; reflexivity | vm_compute; discriminate]. Qed.

End SchedFacts.

(** ** The queue under interleaved pushes and pops *)

Module QueueLaws.
Import Queue Int64Facts QueueFacts.
Section laws.
Context {A : Type}.
Local Abbreviation item := (time_schedulable A).
Local Abbreviation elem := (elem_type A).

(** What [push] and [pop] keep true of a queue: the ordinals stored are
    pairwise different and all below the counter. *)
Definition queue_ok (q : schedulable_queue A) : Prop :=
  NoDup (snd <$> queue q) ∧ Forall (fun e : elem => e.2 < ordinal q) (queue q).

(** X1. [compare_elem] is a strict order, as [std::priority_queue] requires of
    its comparison: it relates no element to itself, never relates two
    elements both ways, is transitive, and leaves unrelated only elements
    with the same deadline and the same ordinal. *)
Theorem compare_elem_strict_order (a b c : elem) :
  compare_elem a a = false ∧
  (compare_elem a b = true → compare_elem b a = false) ∧
  (compare_elem a b = true → compare_elem b c = true → compare_elem a c = true) ∧
  (compare_elem a b = false → compare_elem b a = false →
   when a.1 = when b.1 ∧ a.2 = b.2).
Proof.
  rewrite !compare_elem_false, !compare_elem_true.
  unfold before, same_key. lia.
Qed.

Lemma pq_remove_subset (m : elem) (l : list elem) (x : elem) :
  x ∈ pq_remove m l → x ∈ l.
Proof. intros H. eapply elem_of_sublist; [exact H | apply pq_remove_sublist]. Qed.

Lemma same_ordinal_same_elem (l : list elem) (x y : elem) :
  NoDup (snd <$> l) → x ∈ l → y ∈ l → x.2 = y.2 → x = y.
Proof.
  induction l as [|e l IH]; intros Hnd Hx Hy Heq; [by apply elem_of_nil in Hx|].
  rewrite fmap_cons in Hnd. apply NoDup_cons in Hnd as [He Hnd].
  apply elem_of_cons in Hx as [->|Hx]; apply elem_of_cons in Hy as [->|Hy].
  - done.
  - exfalso. apply He. rewrite Heq. apply list_elem_of_fmap. by exists y.
  - exfalso. apply He. rewrite <- Heq. apply list_elem_of_fmap. by exists x.
  - by apply IH.
Qed.

(** With pairwise different ordinals the top is the one element that
    comes before all others. *)
Lemma pq_top_unique (l : list elem) (m : elem) :
  NoDup (snd <$> l) → m ∈ l →
  (∀ x, x ∈ l → before m x ∨ same_key m x) →
  pq_top l = Some m.
Proof.
  intros Hnd Hin Hle. destruct l as [|c l]; [by apply elem_of_nil in Hin|].
  simpl. f_equal. destruct (pq_best_spec l c) as [Hin' Hle'].
  apply (same_ordinal_same_elem (c :: l)); [done..|].
  specialize (Hle _ Hin'). specialize (Hle' _ Hin).
  unfold before, same_key in *. lia.
Qed.

Lemma pq_top_spec (l : list elem) (m : elem) :
  pq_top l = Some m →
  m ∈ l ∧ ∀ x, x ∈ l → before m x ∨ same_key m x.
Proof.
  destruct l as [|c l]; [done|]. simpl. intros [= <-]. apply pq_best_spec.
Qed.

Lemma pq_top_none (l : list elem) : pq_top l = None → l = [].
Proof. by destruct l. Qed.

Section arranged.

(** Whatever order the container keeps, it holds the elements it was
    given. *)
Context (arrange : list elem → list elem).
Context (Hperm : ∀ l, arrange l ≡ₚ l).

Lemma push_keeps_ok (q : schedulable_queue A) (v : item) :
  queue_ok q → ordinal q < int64_max → queue_ok (push arrange q v).
Proof.
  intros [Hnd Hlt] Hfit. unfold push, pq_push.
  pose proof (wrap64_succ (ordinal q) Hfit) as Hw.
  split; cbn [queue ordinal]; rewrite Hperm.
  - rewrite fmap_app. simpl. apply NoDup_app. split; [done|]. split.
    + intros x Hx Hx'. apply list_elem_of_singleton in Hx' as ->.
      apply list_elem_of_fmap in Hx as (e & He & Hin).
      rewrite Forall_forall in Hlt. specialize (Hlt e Hin). lia.
    + apply NoDup_singleton.
  - apply Forall_app. split.
    + eapply Forall_impl; [exact Hlt|]. simpl. intros; lia.
    + constructor; [simpl; lia | constructor].
Qed.

(** X2. The invariant holds for a queue with nothing in it and is kept by
    every [push] whose increment of the counter does not wrap and by
    every [pop]. *)
Theorem queue_ok_kept (q : schedulable_queue A) (o : Z) :
  queue_ok (mk_queue [] o) ∧
  (queue_ok q →
   (∀ v, ordinal q < int64_max → queue_ok (push arrange q v)) ∧
   (∀ q', pop arrange q = Some q' → queue_ok q')).
Proof.
  split; [split; constructor|].
  intros Hok. split; [intros v Hfit; by apply push_keeps_ok|].
  destruct Hok as [Hnd Hlt].
  - intros q'. unfold pop, pq_pop. destruct (pq_top (queue q)) as [m|]; [|done].
    simpl. intros [= <-]. split; cbn [queue ordinal]; rewrite Hperm.
    + eapply sublist_NoDup; [exact Hnd|].
      apply fmap_sublist. apply (pq_remove_sublist m (queue q)).
    + apply Forall_forall. intros x Hx. rewrite Forall_forall in Hlt.
      apply Hlt. by apply pq_remove_subset in Hx.
Qed.

(** X3. On a queue that satisfies the invariant and is not empty, [top()]
    gives the item of one stored element, [pop()] removes exactly this
    element and leaves the counter alone, and every element that remains
    has a later deadline, or the same deadline and a larger ordinal. *)
Theorem top_pop_take_the_earliest (q : schedulable_queue A)
    (Hok : queue_ok q) (Hne : empty q = false) :
  ∃ (m : elem) (q' : schedulable_queue A),
    top q = Some m.1 ∧ pop arrange q = Some q' ∧
    queue q ≡ₚ m :: queue q' ∧ ordinal q' = ordinal q ∧
    length (queue q) = S (length (queue q')) ∧
    ∀ e, e ∈ queue q' → before m e.
Proof.
  destruct Hok as [Hnd _]. destruct q as [l o]. simpl in *.
  destruct l as [|c l]; [done|].
  destruct (pq_best_spec l c) as [Hin Hle].
  pose proof (pq_remove_perm (pq_best c l) (c :: l) Hnd Hin) as Hp.
  exists (pq_best c l), (mk_queue (arrange (pq_remove (pq_best c l) (c :: l))) o).
  unfold top, pop, pq_pop. cbn [queue ordinal pq_top fmap option_fmap option_map
    mbind option_bind].
  split; [done|]. split; [done|]. split; [by rewrite Hperm|]. split; [done|].
  split; [rewrite Hperm; by apply Permutation_length in Hp|].
  intros e He. rewrite Hperm in He.
  destruct (Hle e (pq_remove_subset _ _ _ He)) as [?|[Hk1 Hk2]]; [done|].
  exfalso.
  assert (Hnd2 : NoDup (snd <$> pq_best c l :: pq_remove (pq_best c l) (c :: l)))
    by by rewrite <- Hp.
  rewrite fmap_cons in Hnd2. apply NoDup_cons in Hnd2 as [Hm _].
  apply Hm. rewrite Hk2. apply list_elem_of_fmap. by exists e.
Qed.

(** X4. Pushing onto a queue that satisfies the invariant, with an
    increment of the counter that does not wrap: the new item becomes the
    top only if the queue was empty or its deadline is strictly earlier
    than that of the current top; with an equal or later deadline the top
    stays what it was. *)
Theorem push_changes_top_only_when_earlier (q : schedulable_queue A)
    (v : item) (Hok : queue_ok q) (Hfit : ordinal q < int64_max) :
  (top q = None → top (push arrange q v) = Some v) ∧
  (∀ x, top q = Some x →
        top (push arrange q v) = Some (if when v <? when x then v else x)).
Proof.
  destruct (push_keeps_ok q v Hok Hfit) as [Hnd' _].
  destruct Hok as [Hnd Hlt]. destruct q as [l o].
  unfold push, pq_push, top in *. cbn [queue ordinal] in *.
  rewrite Forall_forall in Hlt. split.
  - intros Hnone. destruct (pq_top l) eqn:E; [done|].
    apply pq_top_none in E as ->.
    rewrite (pq_top_unique _ (v, o)); [done|done| |].
    + rewrite Hperm. left.
    + intros x Hx. rewrite Hperm in Hx. apply list_elem_of_singleton in Hx as ->.
      right. by split.
  - intros x Hx. destruct (pq_top l) as [m|] eqn:E; [|done].
    injection Hx as <-. apply pq_top_spec in E as [Hin Hle].
    pose proof (Hlt _ Hin) as Hm.
    destruct (Z.ltb_spec (when v) (when m.1)) as [Hv|Hv].
    + rewrite (pq_top_unique _ (v, o)); [done|done| |].
      * rewrite Hperm. apply elem_of_app. right. left.
      * intros x Hx. rewrite Hperm in Hx.
        apply elem_of_app in Hx as [Hx|Hx].
        { specialize (Hle _ Hx). unfold before, same_key in *. simpl. lia. }
        apply list_elem_of_singleton in Hx as ->. right. by split.
    + rewrite (pq_top_unique _ m); [done|done| |].
      * rewrite Hperm. apply elem_of_app. by left.
      * intros x Hx. rewrite Hperm in Hx.
        apply elem_of_app in Hx as [Hx|Hx]; [by apply Hle|].
        apply list_elem_of_singleton in Hx as ->.
        unfold before, same_key. simpl. lia.
Qed.

End arranged.
End laws.

Lemma top_pop_take_the_earliest_witness :
  ∃ q', pop reverse (mk_queue [(mk_item 5 1%nat, 0); (mk_item 3 2%nat, 1)] 2)
          = Some q' ∧
        top (mk_queue [(mk_item 5 1%nat, 0); (mk_item 3 2%nat, 1)] 2)
          = Some (mk_item 3 2%nat).
Proof.
  destruct (top_pop_take_the_earliest reverse reverse_Permutation
              (mk_queue [(mk_item 5 1%nat, 0); (mk_item 3 2%nat, 1)] 2))
    as (m & q' & Ht & Hp & _).
  - split; simpl.
    + constructor; [rewrite list_elem_of_singleton; lia|].
      constructor; [apply not_elem_of_nil | constructor].
    + repeat (constructor; [simpl; lia|]). constructor.
  - reflexivity.
  - exists q'. split; [exact Hp | reflexivity].
Defined.

Lemma push_changes_top_only_when_earlier_witness :
  top (push reverse (mk_queue [(mk_item 5 1%nat, 0)] 1) (mk_item 5 2%nat))
    = Some (mk_item 5 1%nat).
Proof.
  destruct (push_changes_top_only_when_earlier reverse reverse_Permutation
              (mk_queue [(mk_item 5 1%nat, 0)] 1) (mk_item 5 2%nat)) as [_ H].
  - split; simpl.
    + constructor; [apply not_elem_of_nil | constructor].
    + repeat (constructor; [simpl; lia|]). constructor.
  - unfold int64_min, int64_max. simpl. lia.
  - exact (H (mk_item 5 1%nat) eq_refl).
Defined.

Lemma compare_elem_strict_order_witness :
  compare_elem (mk_item 5 1%nat, 1) (mk_item 5 1%nat, 0) = true ∧
  compare_elem (mk_item 5 1%nat, 0) (mk_item 5 1%nat, 1) = false.
Proof.
  destruct (compare_elem_strict_order (mk_item 5 1%nat, 1) (mk_item 5 1%nat, 0)
              (mk_item 5 1%nat, 0)) as (_ & H & _).
  split; [reflexivity | exact (H eq_refl)].
Defined.

Lemma queue_ok_kept_witness :
  queue_ok (push reverse (mk_queue ([] : list (elem_type nat)) 0) (mk_item 5 1%nat)).
Proof.
  destruct (queue_ok_kept reverse reverse_Permutation
              (mk_queue ([] : list (elem_type nat)) 0) 0) as [H0 H].
  destruct (H H0) as [Hpush _].
  apply Hpush. unfold int64_min, int64_max. simpl. lia.
Defined.

End QueueLaws.

(** ** More on recursion contexts, workers and schedulables *)

Module SchedLaws.
Import Sched Overloads SchedFacts.
Section laws.
Context {U : Type}.
Local Abbreviation world := (world U).
Local Abbreviation outcome := (outcome U).

(** Reading and writing the bools that were allocated last. *)
Lemma lookup_tail (fl tl : list bool) (k : nat) :
  (fl ++ tl) !! (length fl + k)%nat = tl !! k.
Proof. rewrite lookup_app_r by lia. f_equal. lia. Qed.

Lemma insert_tail (fl tl : list bool) (k : nat) (b : bool) :
  <[(length fl + k)%nat:=b]> (fl ++ tl) = fl ++ <[k:=b]> tl.
Proof. rewrite insert_app_r_alt by lia. do 2 f_equal. lia. Qed.

Lemma lookup_tail0 (fl tl : list bool) : (fl ++ tl) !! length fl = tl !! 0%nat.
Proof. rewrite <- (lookup_tail fl tl 0). f_equal. lia. Qed.

Lemma insert_tail0 (fl tl : list bool) (b : bool) :
  <[length fl:=b]> (fl ++ tl) = fl ++ <[0%nat:=b]> tl.
Proof. rewrite <- (insert_tail fl tl 0). f_equal. lia. Qed.

Ltac tail_cells :=
  repeat (rewrite insert_tail || rewrite insert_tail0 ||
          rewrite lookup_tail || rewrite lookup_tail0);
  simpl.

(** X5. [recursion::reset(b)] is seen by the [recurse] handed out before: the
    strategy can withdraw or grant tail recursion while an action holds
    the context, and doing so does not touch the request. *)
Theorem recursion_reset_reaches_recurse (b b' : bool) (w : world) :
  let '(rn, w1) := new_recursion b w in
  is_allowed (get_recurse rn) w1 = b ∧
  is_allowed (get_recurse rn) (recursion_reset rn b' w1) = b' ∧
  is_requested (get_recurse rn) (recursion_reset rn b' w1)
    = is_requested (get_recurse rn) w1.
Proof.
  unfold new_recursion, new_recurse, recursion_reset, set_flag, is_allowed,
    is_requested, flag, get_recurse. simpl.
  rewrite length_app, <- app_assoc. simpl. by tail_cells.
Qed.

(** X6. Two recursion contexts alive at the same time do not interfere: a
    request made through the token of one is not seen by the other, and
    resetting one leaves the request of the other standing. *)
Theorem recursion_contexts_are_independent (b1 b2 : bool) (w : world) :
  let '(rn1, w1) := new_recursion b1 w in
  let '(rn2, w2) := new_recursion b2 w1 in
  let r1 := get_recurse rn1 in
  let r2 := get_recurse rn2 in
  let w3 := recursed_call (get_recursed r2) (recurse_reset r1 w2) in
  let w4 := recurse_reset r2 (recursed_call (get_recursed r1) (recurse_reset r1 w2)) in
  is_requested r1 w3 = false ∧ is_requested r2 w3 = true ∧
  is_allowed r1 w3 = b1 ∧ is_allowed r2 w3 = b2 ∧
  is_requested r1 w4 = true ∧ is_requested r2 w4 = false.
Proof.
  unfold new_recursion, new_recurse, recursed_call, recurse_reset, set_flag,
    is_allowed, is_requested, flag, get_recurse, get_recursed. simpl.
  rewrite !length_app. simpl. rewrite <- !app_assoc. simpl.
  rewrite <- !Nat.add_assoc. simpl. by tail_cells.
Qed.

(** What the inheriting constructor leaves alone. *)
Lemma inherit_fields (s : schedulable) (q : worker) (a : action) (w : world) :
  let n := (schedulable_inherit s q a w).1 in
  let w' := (schedulable_inherit s q a w).2 in
  lifetime n = lifetime s ∧ controller n = q ∧ activity n = a ∧
  scoped n = scoped s ∧ recursed_scope n = None ∧
  posted w' = posted w ∧ times w' = times w ∧ calls w' = calls w ∧
  user w' = user w ∧ flags w' = flags w ∧ clock w' = clock w ∧
  (scoped s = false → w' = w).
Proof.
  unfold schedulable_inherit, get_subscription. destruct (scoped s); simpl.
  - destruct (sub_add _ _ _); simpl. by repeat split.
  - by repeat split.
Qed.

(** X8. [schedule(duration)] of a schedulable and of a worker is
    [schedule(time_point)] at the worker's [now()] plus the delay, a sum
    of 64-bit values: it is the exact sum when that is representable and
    wraps around otherwise.  For a subscribed schedulable it posts exactly
    one entry, with that deadline, rebound to the stored worker and with
    the action and subscription of the schedulable; for an unsubscribed
    one all three [schedule] forms change nothing. *)
Theorem schedule_after_is_schedule_at_now (s : schedulable) (d t : Z) (w : world)
    (i : nat) (Hi : worker_inner (controller s) = Some i) :
  schedule_after s d w = schedule_at s (time_add (clock w) d) w ∧
  worker_schedule_after (controller s) d s w
    = worker_schedule_at (controller s) (time_add (clock w) d) s w ∧
  in_range (time_add (clock w) d) ∧
  (in_range (clock w + d) → time_add (clock w) d = clock w + d) ∧
  (is_subscribed s w = false →
     schedule s w = Returned w ∧ schedule_at s t w = Returned w ∧
     schedule_after s d w = Returned w) ∧
  (is_subscribed s w = true →
     ∃ n w', schedule_after s d w = Returned w' ∧
             posted w' = posted w
               ++ [mk_submission i (Some (time_add (clock w) d)) n] ∧
             get_worker n = controller s ∧ get_action n = activity s ∧
             get_subscription n = lifetime s ∧ is_recursed n = false).
Proof.
  unfold schedule, schedule_at, schedule_after, worker_schedule_after,
    worker_schedule_at. rewrite Hi.
  split; [done|]. split; [done|]. split; [apply wrap64_bounds|].
  split; [apply wrap64_fits|]. split.
  - intros ->. by repeat split.
  - intros ->.
    pose proof (make_schedulable_fields s (controller s) w)
      as (H1 & H2 & H3 & _ & H5 & _).
    destruct (schedule_rebind_effect (controller s)
                (Some (time_add (clock w) d)) s w i Hi) as (w' & E & P & _).
    exists (make_schedulable s (controller s) w).1, w'.
    unfold is_recursed, get_worker, get_action, get_subscription.
    rewrite H5. by repeat split.
Qed.

(** X9. [schedule_periodically] runs nothing itself: with a worker whose
    strategy is set it allocates the target, holding [initial], and posts
    exactly one entry, with deadline [initial], bound to this worker, with
    the subscription of the schedulable passed in and with the action made
    for the lambda; the work is not called.  The overload taking a
    duration does the same at [now() + initial], a sum of 64-bit values. *)
Theorem schedule_periodically_posts_first_tick (q : worker) (initial period d : Z)
    (scbl : schedulable) (p i : nat) (w : world)
    (Hi : worker_inner q = Some i) :
  (∃ n w1, schedule_periodically q initial period scbl p w = Returned w1 ∧
           posted w1 = posted w ++ [mk_submission i (Some initial) n] ∧
           lifetime n = lifetime scbl ∧ controller n = q ∧
           activity n = mk_action (Some p) ∧ scoped n = scoped scbl ∧
           times w1 = times w ++ [initial] ∧
           calls w1 = calls w ∧ user w1 = user w ∧ clock w1 = clock w) ∧
  schedule_periodically_after q d period scbl p w
    = schedule_periodically q (time_add (clock w) d) period scbl p w ∧
  (in_range (clock w + d) → time_add (clock w) d = clock w + d).
Proof.
  split; [|split; [unfold schedule_periodically_after; by rewrite Hi
                  |apply wrap64_fits]].
  unfold schedule_periodically, schedule_periodically_rebind, periodic_activity,
    periodic_target.
  set (w0 := with_times w (times w ++ [initial])).
  pose proof (make_schedulable_fields scbl q w0)
    as (A1 & A2 & A3 & A4 & _ & A6 & A7 & A8 & A9 & _ & A11 & _).
  destruct (make_schedulable scbl q w0) as [act w2].
  pose proof (make_schedulable_fn_fields act p w2)
    as (B1 & B2 & B3 & B4 & _ & B6 & B7 & B8 & B9 & _ & B11 & _).
  destruct (make_schedulable_fn act p w2) as [n w3].
  cbn [fst snd] in *.
  pose proof (destroy_keeps (schedulable_copy act) w3)
    as (C1 & C2 & C3 & C4 & _ & C6 & _).
  cbv zeta in C1, C2, C3, C4, C6.
  set (w4 := schedulable_destroy (schedulable_copy act) w3) in *.
  assert (Ht : times w4 = times w ++ [initial]) by by rewrite C2, B7, A7.
  rewrite Ht, list_lookup_middle by done.
  change (default 0 (Some initial)) with initial.
  unfold inner_schedule. rewrite Hi. cbn [leaving].
  set (w5 := with_posted w4 _).
  pose proof (destroy_keeps n w5) as (D1 & D2 & D3 & D4 & _ & D6 & _).
  pose proof (destroy_keeps act (schedulable_destroy n w5))
    as (E1 & E2 & E3 & E4 & _ & E6 & _).
  cbv zeta in *. eexists n, _. split; [reflexivity|].
  rewrite E1, E2, E3, E4, E6, D1, D2, D3, D4, D6. unfold w5.
  cbn [posted times calls user clock with_posted].
  rewrite Ht, C1, C3, C4, C6, B6, B8, B9, B11, A6, A8, A9, A11. unfold w0.
  cbn [posted times calls user clock with_times].
  repeat split; congruence.
Qed.

(** *** Cancelling a worker *)

Lemma reach_front (d : nat) (regs : list (nat * nat * nat)) (front : list nat)
    (x : nat) :
  x ∈ front → x ∈ reach d regs front.
Proof. destruct d; simpl; [done|]. intros H. apply elem_of_app. by left. Qed.

Lemma reach_child (d : nat) (regs : list (nat * nat * nat)) (front : list nat)
    (r : nat * nat * nat) :
  r ∈ regs → r.1.2 ∈ front → r.2 ∈ reach (S d) regs front.
Proof.
  intros Hr Hp. simpl. apply elem_of_app. right. apply reach_front.
  unfold children. apply list_elem_of_fmap. exists r. split; [done|].
  by apply list_elem_of_filter.
Qed.

Lemma reach_elems (d : nat) (regs : list (nat * nat * nat)) :
  ∀ (front : list nat) (x : nat),
    x ∈ reach d regs front → x ∈ front ∨ ∃ r, r ∈ regs ∧ r.2 = x.
Proof.
  induction d as [|d IH]; intros front x; simpl; [by left|].
  intros [H|H]%elem_of_app; [by left|]. right.
  destruct (IH _ _ H) as [Hc|Hc]; [|done].
  unfold children in Hc. apply list_elem_of_fmap in Hc as (r & -> & Hr).
  apply list_elem_of_filter in Hr as [_ Hr]. by exists r.
Qed.

Lemma revoked_stays (st : subscriptions) (s x : composite_subscription) :
  sub_is_subscribed st x = false →
  sub_is_subscribed (sub_unsubscribe st s) x = false.
Proof.
  unfold sub_is_subscribed, sub_unsubscribe. simpl.
  rewrite !bool_decide_eq_false. intros H H'. apply H. intros Hx. apply H'.
  by apply elem_of_union_r.
Qed.

Lemma unsubscribe_revokes (st : subscriptions) (s : composite_subscription) :
  sub_is_subscribed (sub_unsubscribe st s) s = false.
Proof.
  unfold sub_is_subscribed, sub_unsubscribe. simpl.
  apply bool_decide_eq_false. intros H. apply H.
  apply elem_of_union_l, elem_of_list_to_set, reach_front. left.
Qed.

Lemma unsubscribe_child (st : subscriptions) (t : nat)
    (parent child : composite_subscription) :
  (t, parent, child) ∈ registered st →
  sub_is_subscribed (sub_unsubscribe st parent) child = false.
Proof.
  intros Hin. unfold sub_is_subscribed, sub_unsubscribe. cbn [revoked].
  apply bool_decide_eq_false. intros H. apply H.
  apply elem_of_union_l, elem_of_list_to_set.
  destruct (registered st) as [|r0 regs]; [by apply elem_of_nil in Hin|].
  cbn [length]. by apply (reach_child _ _ _ (t, parent, child)); [|left].
Qed.

Lemma unsubscribe_spares (st : subscriptions) (s x : composite_subscription) :
  sub_is_subscribed st x = true → x ≠ s →
  (∀ r, r ∈ registered st → r.2 ≠ x) →
  sub_is_subscribed (sub_unsubscribe st s) x = true.
Proof.
  intros Hx Hne Hfree. unfold sub_is_subscribed, sub_unsubscribe in *.
  cbn [revoked]. apply bool_decide_eq_true in Hx. apply bool_decide_eq_true.
  intros [Hd|Hr]%elem_of_union; [|done].
  apply elem_of_list_to_set, reach_elems in Hd as [Hd|(r & Hr & Hc)].
  - by apply list_elem_of_singleton in Hd.
  - by apply (Hfree r).
Qed.

(** X10. Work handed to a worker as a function.  [worker::schedule(f)]
    posts a schedulable that shares the subscription of the worker, so it
    is unsubscribed as soon as the worker is.  [worker::schedule(cs, f)]
    posts a schedulable with the subscription [cs]: with the worker
    already unsubscribed [cs] is unsubscribed at once; otherwise [cs] is
    registered in the subscription of the worker while the primitive
    runs, and unsubscribing the worker then would cancel it, but the
    schedulable made is a temporary whose destructor takes the
    registration away again, so that once the call has returned
    unsubscribing the worker leaves a [cs] that is registered nowhere
    else subscribed. *)
Theorem scheduled_function_and_worker_unsubscribe (q : worker) (when : option Z)
    (cs : composite_subscription) (p i : nat) (w : world)
    (Hi : worker_inner q = Some i) :
  (∃ w', worker_schedule_fn q when p w = Returned w' ∧
         posted w' = posted w ++ [mk_submission i when (make_schedulable_worker_fn q p)] ∧
         subs w' = subs w ∧
         is_subscribed (make_schedulable_worker_fn q p) w' = worker_is_subscribed q w ∧
         is_subscribed (make_schedulable_worker_fn q p) (worker_unsubscribe q w')
           = false) ∧
  (∃ n w', worker_schedule_cs_fn q when cs p w = Returned w' ∧
           posted w' = posted w ++ [mk_submission i when n] ∧
           n = (make_schedulable_worker_cs_fn q cs p w).1 ∧
           lifetime n = cs ∧ controller n = q ∧ scoped n = true ∧
           activity n = mk_action (Some p) ∧
           (worker_is_subscribed q w = false → is_subscribed n w' = false) ∧
           (worker_is_subscribed q w = true →
            action_scope n = Some (next_token (subs w)) ∧
            is_subscribed n
              (worker_unsubscribe q (make_schedulable_worker_cs_fn q cs p w).2)
              = false ∧
            (∀ r, r ∈ registered (subs w') → r.1.1 ≠ next_token (subs w)) ∧
            (sub_is_subscribed (subs w) cs = true → cs ≠ worker_lifetime q →
             (∀ r, r ∈ registered (subs w) → r.2 ≠ cs) →
             is_subscribed n (worker_unsubscribe q w') = true))).
Proof.
  split.
  - unfold worker_schedule_fn, inner_schedule. rewrite Hi.
    eexists. split; [reflexivity|]. simpl. repeat split.
    apply unsubscribe_revokes.
  - unfold worker_schedule_cs_fn, make_schedulable_worker_cs_fn,
      schedulable_scoped, sub_add, inner_schedule, worker_is_subscribed.
    destruct (sub_is_subscribed (subs w) (worker_lifetime q)) eqn:Hq;
      rewrite Hi; cbn [leaving fst snd]; eexists _, _;
      (split; [reflexivity|]);
      unfold schedulable_destroy; cbn [scoped action_scope sub_remove];
      cbn [posted subs with_subs with_posted registered revoked next_token];
      (split; [reflexivity|]); (split; [reflexivity|]);
      do 4 (split; [reflexivity|]).
    + split; [done|]. intros _. split; [done|]. split.
      { unfold is_subscribed, worker_unsubscribe.
        cbn [subs with_subs lifetime].
        apply (unsubscribe_child _ (next_token (subs w))). left. }
      split.
      { intros r Hr. by apply list_elem_of_filter in Hr as [Hr _]. }
      intros Hcs Hne Hfree. unfold is_subscribed, worker_unsubscribe.
      cbn [subs with_subs with_posted lifetime].
      apply unsubscribe_spares; [done|done|]. cbn [registered].
      intros r Hr. apply list_elem_of_filter in Hr as [Hk Hr].
      apply elem_of_cons in Hr as [->|Hr]; [done|by apply Hfree].
    + split; [|done]. intros _. unfold is_subscribed.
      cbn [subs with_subs with_posted lifetime revoked].
      unfold sub_is_subscribed. cbn [revoked].
      apply unsubscribe_revokes.
Qed.

(** X11. A schedulable that shares the subscription of the worker it was made
    for keeps that subscription when another worker schedules it: nothing
    is registered in the new worker, and unsubscribing the new worker,
    whose subscription is a different one in which the old one is not
    registered, does not cancel the entry it was handed. *)
Theorem rebound_shared_work_outlives_new_worker (q : worker) (s : schedulable)
    (i : nat) (w : world)
    (Hi : worker_inner q = Some i)
    (Hshared : scoped s = false)
    (Hother : lifetime s ≠ worker_lifetime q)
    (Hactive : is_subscribed s w = true)
    (Hfree : ∀ r, r ∈ registered (subs w) → r.2 ≠ lifetime s) :
  ∃ n w', worker_schedule q s w = Returned w' ∧
          posted w' = posted w ++ [mk_submission i None n] ∧
          subs w' = subs w ∧
          get_worker n = q ∧ get_subscription n = lifetime s ∧
          is_subscribed n (worker_unsubscribe q w') = true.
Proof.
  pose proof (make_schedulable_fields s q w) as (H1 & H2 & _).
  destruct (schedule_rebind_effect q None s w i Hi)
    as (w' & E & P & _ & _ & _ & _ & _ & Hsubs & _).
  specialize (Hsubs Hshared).
  exists (make_schedulable s q w).1, w'. unfold worker_schedule.
  do 5 (split; [done|]).
  unfold is_subscribed, worker_unsubscribe. cbn [subs with_subs].
  rewrite H1, Hsubs. apply unsubscribe_spares; done.
Qed.

(** *** Functions that cancel or throw *)

Definition is_throw (q : user_request) : bool :=
  match q with Throw => true | _ => false end.
Definition is_unsubscribe (q : user_request) : bool :=
  match q with Unsubscribe => true | _ => false end.

(** Some request throws; some request unsubscribes. *)
Definition throws (qs : list user_request) : bool := existsb is_throw qs.
Definition cancels (qs : list user_request) : bool := existsb is_unsubscribe qs.

(** What no request of a function changes. *)
Definition same_but_scope (c : nat) (w w' : world) : Prop :=
  posted w' = posted w ∧ times w' = times w ∧ user w' = user w ∧
  calls w' = calls w ∧ length (flags w') = length (flags w) ∧
  (∀ a, a ≠ c → flag w' a = flag w a) ∧
  (∀ x, sub_is_subscribed (subs w) x = false →
        sub_is_subscribed (subs w') x = false).

Lemma same_but_scope_refl (c : nat) (w : world) : same_but_scope c w w.
Proof. by repeat split. Qed.

Lemma same_but_scope_trans (c : nat) (w1 w2 w3 : world) :
  same_but_scope c w1 w2 → same_but_scope c w2 w3 → same_but_scope c w1 w3.
Proof.
  intros (A1 & A2 & A3 & A4 & A5 & A6 & A7) (B1 & B2 & B3 & B4 & B5 & B6 & B7).
  repeat split; try congruence.
  - intros a Ha. by rewrite B6, A6.
  - intros x Hx. by apply B7, A7.
Qed.

Lemma user_step_effect (s : schedulable) (c : nat) (q : user_request) (w : world) :
  recursed_scope s = Some (mk_recursed c) →
  ∃ w', user_step s q w = (if is_throw q then Thrown w' else Returned w') ∧
        same_but_scope c w w' ∧
        (is_unsubscribe q = true → is_subscribed s w' = false) ∧
        (is_unsubscribe q = false → subs w' = subs w).
Proof.
  intros Hc. destruct q; simpl.
  - unfold request_recursion. rewrite Hc. eexists. split; [reflexivity|].
    split; [|done]. unfold recursed_call, set_flag. repeat split; simpl; try done.
    + by rewrite length_insert.
    + intros a Ha. unfold flag. simpl. by rewrite list_lookup_insert_ne.
  - eexists. split; [reflexivity|]. split; [|split; [|done]].
    + repeat split; try done. intros x Hx. by apply revoked_stays.
    + intros _. apply unsubscribe_revokes.
  - eexists. split; [reflexivity|]. split; [by repeat split | done].
  - exists w. split; [done|]. split; [apply same_but_scope_refl | done].
Qed.

Lemma user_steps_effect (s : schedulable) (c : nat) (qs : list user_request) :
  recursed_scope s = Some (mk_recursed c) →
  ∀ w, ∃ w', user_steps s qs w = (if throws qs then Thrown w' else Returned w') ∧
             same_but_scope c w w' ∧
             (throws qs = false → cancels qs = true → is_subscribed s w' = false).
Proof.
  intros Hc. induction qs as [|q qs IH]; intros w.
  - exists w. split; [done|]. split; [apply same_but_scope_refl | done].
  - destruct (user_step_effect s c q w Hc) as (w1 & E1 & S1 & U1 & _).
    cbn [user_steps throws cancels existsb]. rewrite E1.
    destruct (is_throw q) eqn:Ht; cbn [orb].
    + exists w1. split; [done|]. split; [done|]. done.
    + destruct (IH w1) as (w2 & E2 & S2 & U2). exists w2. rewrite E2.
      split; [done|]. split; [by eapply same_but_scope_trans|].
      fold (throws qs). fold (cancels qs). intros Hth Hcn.
      destruct (is_unsubscribe q) eqn:Hu; cbn [orb] in Hcn; [|by apply U2].
      unfold is_subscribed. apply S2. by apply U1.
Qed.

(** One call of a function through its action, as [user_call], for a
    function that may cancel or throw. *)
Lemma user_call_effect (uf : U → U * list user_request) (invoke : invoker U)
    (s : schedulable) (r : recurse) (w : world) :
  sound_recurse r w →
  ∃ w1, user_function uf invoke (set_recursed s r) (recurse_reset r w)
          = (if throws (uf (user w)).2 then Thrown w1 else Returned w1) ∧
        posted w1 = posted w ∧ times w1 = times w ∧
        user w1 = (uf (user w)).1 ∧ calls w1 = calls w ++ [user w] ∧
        length (flags w1) = length (flags w) ∧
        (∀ a, a ≠ isrequested r → flag w1 a = flag w a) ∧
        (∀ x, sub_is_subscribed (subs w) x = false →
              sub_is_subscribed (subs w1) x = false) ∧
        (throws (uf (user w)).2 = false → cancels (uf (user w)).2 = true →
         is_subscribed s w1 = false).
Proof.
  intros (Hown & Hlen & Hne). unfold user_function.
  change (user (recurse_reset r w)) with (user w).
  destruct (uf (user w)) as [u' qs]. cbn [fst snd].
  destruct (user_steps_effect (set_recursed s r) (isrequested r) qs
              (ltac:(simpl; unfold get_recursed; by rewrite Hown))
              (with_user (recurse_reset r w) u' (calls (recurse_reset r w) ++ [user w])))
    as (w1 & E & (S1 & S2 & S3 & S4 & S5 & S6 & S7) & Hcn).
  exists w1. rewrite E. simpl in *.
  split; [done|]. do 4 (split; [done|]).
  split; [by rewrite S5, length_insert|]. split; [|split; [done|exact Hcn]].
  intros a Ha. rewrite S6 by done. unfold flag. simpl.
  by rewrite list_lookup_insert_ne.
Qed.

(** X12. An exception thrown by the function of a [make_action] action leaves
    the action and the schedulable: the invocation ends with the
    exception, the loop makes no further call and posts nothing after it,
    and the scope of the schedulable is unsubscribed on the way out. *)
Theorem exception_leaves_made_action (heap : list (action_type U)) (p : nat)
    (fn : invoker U → schedulable → world → outcome)
    (k : nat) (s : schedulable) (r : recurse) (w w' : world)
    (Hheap : deref heap p = Some (make_action fn))
    (Hact : activity s = mk_action (Some p))
    (Hactive : is_subscribed s w = true)
    (Hthrow : fn (schedulable_invoke heap (S k)) (set_recursed s r)
                (recurse_reset r w) = Thrown w') :
  schedulable_invoke heap (S (S k)) s r w = Thrown (unsubscribe s w') ∧
  is_subscribed s (unsubscribe s w') = false ∧
  posted (unsubscribe s w') = posted w' ∧ calls (unsubscribe s w') = calls w'.
Proof.
  rewrite (invoke_made_action heap p fn) by done.
  rewrite action_loop_step.
  change (is_subscribed (set_recursed s r) w) with (is_subscribed s w).
  rewrite Hactive, Hthrow. split; [done|]. split; [|done].
  apply unsubscribe_revokes.
Qed.

(** From state [u] the function requests recursion on [k] calls in a row
    without cancelling or throwing, and on the next call it unsubscribes
    the schedulable without throwing. *)
Fixpoint cancels_after (uf : U → U * list user_request) (k : nat) (u : U) : Prop :=
  match k with
  | O => throws (uf u).2 = false ∧ cancels (uf u).2 = true
  | S k' => polite (uf u).2 ∧ wants (uf u).2 = true ∧ cancels_after uf k' (uf u).1
  end.

Lemma tail_iterates_until_cancelled (uf : U → U * list user_request)
    (invoke : invoker U) (s : schedulable) (r : recurse) (k : nat) :
  ∀ (n : nat) (w : world),
    sound_recurse r w → is_allowed r w = true → is_subscribed s w = true →
    cancels_after uf k (user w) → (k + 2 ≤ n)%nat →
    ∃ w', action_loop (user_function uf invoke) n (set_recursed s r) r w = Returned w' ∧
          calls w' = calls w ++ entered uf k (user w) ∧
          posted w' = posted w ∧ is_subscribed s w' = false.
Proof.
  induction k as [|k IH]; intros n w Hr Ha Hs Hb Hn;
    (destruct n as [|n]; [lia|]); rewrite action_loop_step;
    change (is_subscribed (set_recursed s r) w) with (is_subscribed s w);
    rewrite Hs.
  - destruct Hb as [Hth Hcn].
    destruct (user_call_effect uf invoke s r w Hr)
      as (w1 & E & H1 & H2 & H3 & H4 & H5 & H6 & H7 & H8).
    rewrite Hth in E. rewrite E. specialize (H8 Hth Hcn).
    exists w1. split; [|by repeat split].
    destruct (negb (is_allowed r w1) || negb (is_requested r w1)).
    + unfold schedule.
      change (is_subscribed (set_recursed s r) w1) with (is_subscribed s w1).
      rewrite H8. by destruct (is_requested r w1).
    + destruct n as [|n]; [lia|]. by apply action_loop_unsubscribed.
  - destruct Hb as (Hp & Hw & Hb).
    destruct (user_call uf invoke s r w Hr Hp)
      as (w1 & E & H1 & H2 & H3 & H4 & H5 & H6 & H7 & H8).
    rewrite E, H6, H7, Ha, Hw. cbn [negb orb].
    destruct (IH n w1) as (w' & E' & G1 & G2 & G3); try done.
    + by rewrite H7.
    + unfold is_subscribed. by rewrite H1.
    + by rewrite H4.
    + lia.
    + exists w'. rewrite E', G1, G2, H5, H4, H3. repeat split; try done.
      by rewrite <- app_assoc.
Qed.

(** X13. Tail iteration ends at cancellation.  A function that keeps
    requesting recursion is called again and again inside one invocation
    that allows it; when one of its calls unsubscribes the schedulable
    that call is the last one: the invocation returns after exactly
    [k + 1] calls, with nothing posted, however many requests were still
    outstanding. *)
Theorem tail_iteration_ends_at_cancellation (heap : list (action_type U))
    (uf : U → U * list user_request) (p k fuel : nat) (s : schedulable)
    (r : recurse) (w : world)
    (Hheap : deref heap p = Some (make_action (user_function uf)))
    (Hact : activity s = mk_action (Some p))
    (Hactive : is_subscribed s w = true)
    (Hr : sound_recurse r w) (Hallowed : is_allowed r w = true)
    (Hf : cancels_after uf k (user w))
    (Hfuel : (k + 2 ≤ fuel)%nat) :
  ∃ w', schedulable_invoke heap (S fuel) s r w = Returned w' ∧
        calls w' = calls w ++ entered uf k (user w) ∧
        posted w' = posted w ∧ is_subscribed s w' = false.
Proof.
  rewrite (invoke_made_action heap p (user_function uf)) by done.
  destruct (tail_iterates_until_cancelled uf (schedulable_invoke heap fuel) s r k
              fuel w Hr Hallowed Hactive Hf Hfuel) as (w' & E & H).
  exists w'. by rewrite E.
Qed.

(** *** The end of a periodic schedule *)

Section periodic_end.
Context (heap : list (action_type U)) (work : U → U * list user_request).
Context (pw p target : nat) (act : schedulable) (period : Z).
Context (Hwork : deref heap pw = Some (make_action (user_function work))).
Context (Hper : deref heap p
                = Some (make_action (periodic_function target period act))).
Context (Hact_a : activity act = mk_action (Some pw)).

(** One dispatch of the tick, down to the call of the lambda. *)
Lemma tick_unfold (k : nat) (allowed : bool) (n : schedulable) (w : world) :
  lifetime n = lifetime act → activity n = mk_action (Some p) →
  is_subscribed act w = true →
  dispatch heap (S (S (S k))) allowed n w =
    let r := get_recurse (new_recursion allowed w).1 in
    let w1 := recurse_reset r (new_recursion allowed w).2 in
    match
      match periodic_function target period act (schedulable_invoke heap (S (S k)))
              (set_recursed n r) w1 with
      | Returned w' =>
          if negb (is_allowed r w') || negb (is_requested r w') then
            if is_requested r w' then schedule (set_recursed n r) w' else Returned w'
          else action_loop
                 (periodic_function target period act
                    (schedulable_invoke heap (S (S k))))
                 (S k) (set_recursed n r) r w'
      | o => o
      end
    with
    | Thrown w' => Thrown (unsubscribe n w')
    | o => o
    end.
Proof.
  intros Hl Ha Hs.
  assert (Hsn : is_subscribed n w = true) by (unfold is_subscribed; by rewrite Hl).
  unfold dispatch. rewrite Hsn.
  pose proof (new_recursion_spec allowed w) as (_ & _ & G1 & _).
  destruct (new_recursion allowed w) as [rn w1]. cbn [fst snd] in *.
  assert (Hs1 : is_subscribed n w1 = true) by (unfold is_subscribed; by rewrite G1).
  rewrite (invoke_made_action heap p (periodic_function target period act))
    by done.
  rewrite action_loop_step.
  change (is_subscribed (set_recursed n (get_recurse rn)) w1)
    with (is_subscribed n w1).
  by rewrite Hs1.
Qed.

(** The body of a tick when the work cancels or throws. *)
Lemma activity_ends (k : nat) (r2 : recurse) (w : world) :
  is_subscribed act w = true → sound_recurse r2 w → is_allowed r2 w = false →
  (throws (work (user w)).2 = false → cancels (work (user w)).2 = true) →
  ∃ w', schedulable_invoke heap (S (S k)) act r2 w
          = (if throws (work (user w)).2
             then Thrown (unsubscribe act w') else Returned w') ∧
        posted w' = posted w ∧ times w' = times w ∧
        calls w' = calls w ++ [user w] ∧
        (throws (work (user w)).2 = false → is_subscribed act w' = false) ∧
        ∀ a, a ≠ isrequested r2 → flag w' a = flag w a.
Proof.
  intros Hs Hr Hal Hcn.
  rewrite (invoke_made_action heap pw (user_function work)) by done.
  rewrite action_loop_step.
  change (is_subscribed (set_recursed act r2) w) with (is_subscribed act w).
  rewrite Hs.
  destruct (user_call_effect work (schedulable_invoke heap (S k)) act r2 w Hr)
    as (w1 & E & H1 & H2 & H3 & H4 & H5 & H6 & H7 & H8).
  rewrite E. exists w1. destruct (throws (work (user w)).2) eqn:Hth.
  - by repeat split.
  - specialize (H8 eq_refl (Hcn eq_refl)). split; [|by repeat split].
    assert (Hal1 : is_allowed r2 w1 = false).
    { unfold is_allowed. rewrite H6; [done|]. apply Hr. }
    rewrite Hal1. cbn [negb orb]. unfold schedule.
    change (is_subscribed (set_recursed act r2) w1) with (is_subscribed act w1).
    rewrite H8. by destruct (is_requested r2 w1).
Qed.

(** X14. A periodic schedule ends when the work cancels.  If the call of the
    work in a tick unsubscribes the schedulable and does not throw, the
    tick returns after that one call, the target has still moved on by one
    period (added in the 64-bit arithmetic of the clock), but no further
    tick is posted, and the strategy, finding the scope inactive, runs
    nothing more of it. *)
Theorem periodic_ends_when_work_cancels (k : nat) (allowed : bool)
    (n : schedulable) (w : world) (t : Z)
    (Hlife : lifetime n = lifetime act)
    (Hact : activity n = mk_action (Some p))
    (Hactive : is_subscribed act w = true)
    (Htarget : times w !! target = Some t)
    (Hquiet : throws (work (user w)).2 = false)
    (Hcancel : cancels (work (user w)).2 = true) :
  ∃ w', dispatch heap (S (S (S k))) allowed n w = Returned w' ∧
        posted w' = posted w ∧ calls w' = calls w ++ [user w] ∧
        times w' !! target = Some (time_add t period) ∧
        is_subscribed n w' = false ∧
        ∀ fuel' allowed', dispatch heap fuel' allowed' n w' = Returned w'.
Proof.
  rewrite tick_unfold by done. cbv zeta.
  pose proof (new_recursion_spec allowed w) as (Hr & _ & G1 & G2 & G3 & G4 & G5).
  destruct (new_recursion allowed w) as [rn w1]. cbn [fst snd] in *.
  set (r := get_recurse rn) in *. set (w1' := recurse_reset r w1).
  assert (Hc0 : flag w1' (isrequested r) = false) by (apply flag_set; apply Hr).
  assert (Hlen1 : (isrequested r < length (flags w1'))%nat).
  { unfold w1', recurse_reset, set_flag. simpl. rewrite length_insert. apply Hr. }
  unfold periodic_function at 1. cbv zeta.
  pose proof (new_recursion_spec false w1') as (Hr2 & Hal2 & F1 & F2 & F3 & F4 & F5).
  pose proof (new_recursion_frame false w1') as (Hfresh & Hold).
  destruct (new_recursion false w1') as [rn2 w2]. cbn [fst snd] in *.
  assert (Hu2 : user w2 = user w) by (rewrite F4; unfold w1'; simpl; done).
  assert (Hs2 : is_subscribed act w2 = true).
  { unfold is_subscribed. rewrite F1. unfold w1'. simpl. by rewrite G1. }
  destruct (activity_ends k (get_recurse rn2) w2 Hs2 Hr2 Hal2)
    as (w3 & E3 & A1 & A2 & A3 & A4 & A5).
  { by rewrite Hu2. }
  rewrite Hu2 in E3, A4, A3. rewrite Hquiet in E3. specialize (A4 Hquiet).
  rewrite E3.
  assert (Ht3 : times w3 !! target = Some t).
  { rewrite A2, F2. unfold w1'. simpl. by rewrite G2. }
  rewrite Ht3. change (default 0 (Some t)) with t.
  set (self := schedulable_copy (set_recursed n r)).
  set (w4 := with_times w3 (<[target:=time_add t period]> (times w3))).
  assert (Hs4 : is_subscribed n w4 = false).
  { unfold is_subscribed in *. simpl. by rewrite Hlife. }
  unfold schedule_at.
  change (is_subscribed self w4) with (is_subscribed n w4).
  rewrite Hs4. cbn [leaving].
  pose proof (destroy_keeps self w4) as (D1 & D2 & D3 & _ & D5 & _ & D7 & _).
  cbv zeta in D1, D2, D3, D5, D7.
  set (w5 := schedulable_destroy self w4) in *.
  assert (Hs5 : is_subscribed n w5 = false).
  { unfold is_subscribed, sub_is_subscribed in *. by rewrite D7. }
  assert (Hreq : is_requested r w5 = false).
  { unfold is_requested, flag. rewrite D5.
    change (default false (flags w4 !! isrequested r)) with (flag w3 (isrequested r)).
    rewrite A5 by lia. rewrite Hold by done. exact Hc0. }
  rewrite Hreq. cbn [negb]. rewrite orb_true_r.
  exists w5. split; [done|]. split.
  { rewrite D1. unfold w4. simpl. rewrite A1, F3. unfold w1'. simpl. done. }
  split.
  { rewrite D3. unfold w4. simpl. rewrite A3, F5. unfold w1'. simpl.
    by rewrite G5. }
  split.
  { rewrite D2. unfold w4. simpl. apply list_lookup_insert_eq.
    by apply lookup_lt_Some in Ht3. }
  split; [done|]. intros fuel' allowed'. unfold dispatch. by rewrite Hs5.
Qed.

(** X15. A periodic schedule ends when the work throws.  The exception leaves
    the tick, the scope is unsubscribed on the way out, the target is left
    where it was and no further tick is posted. *)
Theorem periodic_ends_when_work_throws (k : nat) (allowed : bool)
    (n : schedulable) (w : world) (t : Z)
    (Hlife : lifetime n = lifetime act)
    (Hact : activity n = mk_action (Some p))
    (Hactive : is_subscribed act w = true)
    (Htarget : times w !! target = Some t)
    (Hthrows : throws (work (user w)).2 = true) :
  ∃ w', dispatch heap (S (S (S k))) allowed n w = Thrown w' ∧
        posted w' = posted w ∧ calls w' = calls w ++ [user w] ∧
        times w' !! target = Some t ∧
        is_subscribed n w' = false.
Proof.
  rewrite tick_unfold by done. cbv zeta.
  pose proof (new_recursion_spec allowed w) as (Hr & _ & G1 & G2 & G3 & G4 & G5).
  destruct (new_recursion allowed w) as [rn w1]. cbn [fst snd] in *.
  set (r := get_recurse rn) in *. set (w1' := recurse_reset r w1).
  unfold periodic_function at 1. cbv zeta.
  pose proof (new_recursion_spec false w1') as (Hr2 & Hal2 & F1 & F2 & F3 & F4 & F5).
  destruct (new_recursion false w1') as [rn2 w2]. cbn [fst snd] in *.
  assert (Hu2 : user w2 = user w) by (rewrite F4; unfold w1'; simpl; done).
  assert (Hs2 : is_subscribed act w2 = true).
  { unfold is_subscribed. rewrite F1. unfold w1'. simpl. by rewrite G1. }
  destruct (activity_ends k (get_recurse rn2) w2 Hs2 Hr2 Hal2)
    as (w3 & E3 & A1 & A2 & A3 & _).
  { rewrite Hu2, Hthrows. done. }
  rewrite Hu2 in E3, A3. rewrite Hthrows in E3. rewrite E3. cbn [leaving].
  set (self := schedulable_copy (set_recursed n r)).
  pose proof (destroy_keeps self (unsubscribe act w3)) as (D1 & D2 & D3 & _).
  cbv zeta in D1, D2, D3.
  eexists. split; [reflexivity|].
  cbn [posted calls times unsubscribe with_subs].
  rewrite D1, D2, D3. cbn [posted calls times unsubscribe with_subs].
  rewrite A1, A2, A3, F2, F3, F5. unfold w1'. simpl. rewrite G2, G3, G5.
  do 3 (split; [done|]).
  unfold is_subscribed. simpl. apply unsubscribe_revokes.
Qed.

End periodic_end.

(** *** Work that asks to be run again inside a tick *)

Section periodic_requests.
Context (heap : list (action_type U)) (work : U → U * list user_request).
Context (pw p i target : nat) (q : worker) (act : schedulable) (period : Z).
Context (Hwork : deref heap pw = Some (make_action (user_function work))).
Context (Hper : deref heap p
                = Some (make_action (periodic_function target period act))).
Context (Hq : worker_inner q = Some i).
Context (Hact_a : activity act = mk_action (Some pw)).
Context (Hact_c : controller act = q).

(** X16. Ticks never tail-iterate.  When the work requests recursion during a
    tick it is not called a second time in that tick: it is posted to the
    worker once, without a deadline, and after it the next tick is posted
    at the target moved on by one period (added in the 64-bit arithmetic
    of the clock).  Without a request only the next tick is posted. *)
Theorem tick_posts_requesting_work_once (k : nat) (allowed : bool)
    (n : schedulable) (w : world) (t : Z)
    (Hlife : lifetime n = lifetime act)
    (Hctl : controller n = q)
    (Hact : activity n = mk_action (Some p))
    (Hactive : is_subscribed act w = true)
    (Hworker : sub_is_subscribed (subs w) (worker_lifetime q) = true)
    (Htarget : times w !! target = Some t)
    (Hpolite : polite (work (user w)).2) :
  ∃ na n' w',
    dispatch heap (S (S (S k))) allowed n w = Returned w' ∧
    calls w' = calls w ++ [user w] ∧
    posted w' = posted w ++
      (if wants (work (user w)).2 then [mk_submission i None na] else []) ++
      [mk_submission i (Some (time_add t period)) n'] ∧
    lifetime na = lifetime act ∧ activity na = activity act ∧
    lifetime n' = lifetime act ∧ activity n' = mk_action (Some p).
Proof.
  rewrite (tick_unfold heap p target act period Hper) by done. cbv zeta.
  pose proof (new_recursion_spec allowed w) as (Hr & _ & G1 & G2 & G3 & G4 & G5).
  destruct (new_recursion allowed w) as [rn w1]. cbn [fst snd] in *.
  set (r := get_recurse rn) in *. set (w1' := recurse_reset r w1).
  assert (Hc0 : flag w1' (isrequested r) = false) by (apply flag_set; apply Hr).
  assert (Hlen1 : (isrequested r < length (flags w1'))%nat).
  { unfold w1', recurse_reset, set_flag. simpl. rewrite length_insert. apply Hr. }
  unfold periodic_function at 1. cbv zeta.
  pose proof (new_recursion_spec false w1') as (Hr2 & Hal2 & F1 & F2 & F3 & F4 & F5).
  pose proof (new_recursion_frame false w1') as (Hfresh & Hold).
  destruct (new_recursion false w1') as [rn2 w2]. cbn [fst snd] in *.
  set (r2 := get_recurse rn2) in *.
  assert (Hu2 : user w2 = user w) by (rewrite F4; unfold w1'; simpl; done).
  assert (Hsub2 : subs w2 = subs w) by (rewrite F1; unfold w1'; simpl; done).
  assert (Hs2 : is_subscribed act w2 = true)
    by (unfold is_subscribed; by rewrite Hsub2).
  (* the body *)
  rewrite (invoke_made_action heap pw (user_function work)) by done.
  rewrite action_loop_step.
  change (is_subscribed (set_recursed act r2) w2) with (is_subscribed act w2).
  rewrite Hs2. rewrite <- Hu2 in Hpolite.
  destruct (user_call work (schedulable_invoke heap (S k)) act r2 w2 Hr2 Hpolite)
    as (w3 & E & H1 & H2 & H3 & H4 & H5 & H6 & H7 & H8).
  destruct (user_call_frame work _ act r2 w2 w3 Hr2 Hpolite E) as [_ Hfr].
  rewrite E, H6, H7, Hal2. cbn [negb orb]. rewrite Hu2 in *.
  assert (Hbody : ∃ na wb,
    (if wants (work (user w)).2 then schedule (set_recursed act r2) w3
     else Returned w3) = Returned wb ∧
    posted wb = posted w3 ++
      (if wants (work (user w)).2 then [mk_submission i None na] else []) ∧
    lifetime na = lifetime act ∧ activity na = activity act ∧
    times wb = times w3 ∧ calls wb = calls w3 ∧ flags wb = flags w3 ∧
    revoked (subs wb) = revoked (subs w3)).
  { destruct (wants (work (user w)).2).
    - unfold schedule.
      change (is_subscribed (set_recursed act r2) w3) with (is_subscribed act w3).
      assert (Hs3 : is_subscribed act w3 = true)
        by (unfold is_subscribed; by rewrite H1, Hsub2).
      rewrite Hs3. unfold worker_schedule.
      change (controller (set_recursed act r2)) with (controller act).
      rewrite Hact_c.
      destruct (schedule_rebind_posts q None (set_recursed act r2) w3 i Hq)
        as (na & wb & Eb & P & K0 & _ & K2 & _ & _ & K4 & K5 & K6 & K7).
      exists na, wb. rewrite Eb. repeat split; try done.
      apply K7. by rewrite H1, Hsub2.
    - exists act, w3. rewrite app_nil_r. by repeat split. }
  destruct Hbody as (na & wb & Eb & Pb & La & Aa & Tb & Cb & Fb & Rb).
  rewrite Eb.
  assert (Ht3 : times wb !! target = Some t).
  { rewrite Tb, H2, F2. unfold w1'. simpl. by rewrite G2. }
  rewrite Ht3. change (default 0 (Some t)) with t.
  set (self := schedulable_copy (set_recursed n r)).
  set (w4 := with_times wb (<[target:=time_add t period]> (times wb))).
  assert (Hrev4 : revoked (subs w4) = revoked (subs w)).
  { unfold w4. simpl. by rewrite Rb, H1, Hsub2. }
  assert (Hs4 : is_subscribed self w4 = true).
  { unfold is_subscribed, sub_is_subscribed in *. simpl. rewrite Hlife.
    change (revoked (subs wb)) with (revoked (subs w4)). by rewrite Hrev4. }
  unfold schedule_at. rewrite Hs4. unfold worker_schedule_at.
  change (controller self) with (controller n).
  rewrite Hctl.
  destruct (schedule_rebind_posts q (Some (time_add t period)) self w4 i Hq)
    as (n' & w5 & E5 & P5 & K0 & _ & K2 & _ & _ & K4 & K5 & _).
  rewrite E5. cbn [leaving].
  pose proof (destroy_keeps self w5) as (D1 & _ & D3 & _ & D5 & _).
  cbv zeta in D1, D3, D5.
  set (w6 := schedulable_destroy self w5) in *.
  assert (Hreq : is_requested r w6 = false).
  { unfold is_requested, flag. rewrite D5, K5. unfold w4. simpl. rewrite Fb.
    change (default false (flags w3 !! isrequested r)) with (flag w3 (isrequested r)).
    rewrite Hfr by lia. rewrite Hold by done. exact Hc0. }
  rewrite Hreq. cbn [negb]. rewrite orb_true_r.
  exists na, n', w6. split; [done|]. simpl in K0, K2.
  rewrite D3, D1, K4, P5. unfold w4. simpl.
  rewrite Cb, H5, F5, Pb, H3, F3. unfold w1'. simpl. rewrite G3, G5.
  rewrite <- app_assoc. repeat split; congruence.
Qed.

End periodic_requests.

(** *** Subscriptions of their own *)


Lemma filter_keeps_all (k : nat) (l : list (nat * nat * nat)) :
  (∀ r, r ∈ l → r.1.1 ≠ k) →
  filter (fun r : nat * nat * nat => r.1.1 ≠ k) l = l.
Proof.
  induction l as [|r l IH]; intros H; [done|].
  rewrite filter_cons, decide_True by (apply H; left).
  rewrite IH; [done|]. intros r' Hr'. apply H. by right.
Qed.

(** X18. The registration of a scoped schedulable belongs to all its copies:
    destroying one copy removes it, and from then on unsubscribing the
    worker no longer cancels the subscription the other copies hold
    (given that it is registered nowhere else). *)
Theorem destroying_a_copy_deregisters (cs : composite_subscription) (q : worker)
    (a : action) (w : world)
    (Hworker : worker_is_subscribed q w = true)
    (Hactive : sub_is_subscribed (subs w) cs = true)
    (Hother : cs ≠ worker_lifetime q)
    (Hfree : ∀ r, r ∈ registered (subs w) → r.2 ≠ cs)
    (Hfresh : ∀ r, r ∈ registered (subs w) → r.1.1 ≠ next_token (subs w)) :
  let '(s, w') := schedulable_scoped cs q a w in
  is_subscribed s (worker_unsubscribe q w') = false ∧
  registered (subs (schedulable_destroy (schedulable_copy s) w'))
    = registered (subs w) ∧
  is_subscribed s
    (worker_unsubscribe q (schedulable_destroy (schedulable_copy s) w')) = true.
Proof.
  unfold schedulable_scoped, sub_add.
  unfold worker_is_subscribed in Hworker. rewrite Hworker.
  assert (Hreg : filter (fun r : nat * nat * nat => r.1.1 ≠ next_token (subs w))
                   (registered (subs w)) = registered (subs w)).
  { by apply filter_keeps_all. }
  split; [|split].
  - unfold is_subscribed, worker_unsubscribe. cbn [subs with_subs lifetime].
    apply (unsubscribe_child _ (next_token (subs w))). left.
  - unfold schedulable_destroy, schedulable_copy, sub_remove.
    cbn [scoped action_scope subs with_subs registered].
    rewrite filter_cons, decide_False by (simpl; intros H; by apply H).
    exact Hreg.
  - unfold is_subscribed, worker_unsubscribe, schedulable_destroy, schedulable_copy,
      sub_remove.
    cbn [scoped action_scope subs with_subs registered lifetime revoked next_token].
    apply unsubscribe_spares; [done|done|]. cbn [registered].
    rewrite filter_cons, decide_False by (simpl; intros H; by apply H).
    rewrite Hreg. exact Hfree.
Qed.

End laws.

(** *** Instances of the laws *)

Lemma schedule_after_is_schedule_at_now_witness :
  ∃ n w',
    schedule_after idle 5 (with_clock world0 100) = Returned w' ∧
    posted w' = [mk_submission 7%nat (Some 105) n].
Proof.
  destruct (schedule_after_is_schedule_at_now idle 5 0 (with_clock world0 100)
              7%nat eq_refl) as (_ & _ & _ & _ & _ & H).
  destruct (H eq_refl) as (n & w' & E & P & _).
  exists n, w'. split; [exact E | exact P].
Defined.

(** At the end of the range of the clock the deadline wraps around. *)
Example schedule_after_wraps :
  (w' ← returned (schedule_after idle 1 (with_clock world0 int64_max));
   Some (deadlines (posted w')))
  = Some [int64_min].
Proof. vm_compute. reflexivity. Qed.

Lemma schedule_periodically_posts_first_tick_witness :
  ∃ n w1,
    schedule_periodically worker0 0 10 idle 2 world0 = Returned w1 ∧
    posted w1 = [mk_submission 7%nat (Some 0) n] ∧ times w1 = [0].
Proof.
  destruct (schedule_periodically_posts_first_tick worker0 0 10 0 idle 2%nat
              7%nat world0 eq_refl)
    as ((n & w1 & E & P & _ & _ & _ & _ & T & _) & _).
  exists n, w1. split; [exact E|]. split; [exact P | exact T].
Defined.

Lemma scheduled_function_and_worker_unsubscribe_witness :
  ∃ n w', worker_schedule_cs_fn worker0 None 5%nat 1%nat world0 = Returned w' ∧
          lifetime n = 5%nat ∧
          is_subscribed n
            (worker_unsubscribe worker0
               (make_schedulable_worker_cs_fn worker0 5%nat 1%nat world0).2) = false ∧
          is_subscribed n (worker_unsubscribe worker0 w') = true.
Proof.
  destruct (scheduled_function_and_worker_unsubscribe worker0 None 5%nat 1%nat
              7%nat world0 eq_refl)
    as (_ & n & w' & E & _ & _ & L & _ & _ & _ & _ & H).
  destruct (H eq_refl) as (_ & H1 & _ & H2).
  exists n, w'. split; [exact E|]. split; [exact L|]. split; [exact H1|].
  apply H2.
  - reflexivity.
  - simpl. lia.
  - intros r Hr. by apply elem_of_nil in Hr.
Defined.

Lemma rebound_shared_work_outlives_new_worker_witness :
  ∃ n w', worker_schedule (mk_worker (Some 9%nat) 2%nat) idle world0 = Returned w' ∧
          is_subscribed n (worker_unsubscribe (mk_worker (Some 9%nat) 2%nat) w') = true.
Proof.
  destruct (rebound_shared_work_outlives_new_worker (mk_worker (Some 9%nat) 2%nat)
              idle 9%nat world0 eq_refl eq_refl)
    as (n & w' & E & _ & _ & _ & _ & H).
  - simpl. lia.
  - reflexivity.
  - intros r Hr. simpl in Hr. by apply elem_of_nil in Hr.
  - exists n, w'. split; [exact E | exact H].
Defined.

Lemma exception_leaves_made_action_witness :
  ∃ w', schedulable_invoke heap_throw 3 idle recurse0 world1 = Thrown w' ∧
        calls w' = [0%nat] ∧ posted w' = [].
Proof.
  destruct (exception_leaves_made_action heap_throw 1%nat
              (user_function (fun u => (u, [Throw]))) 1%nat idle recurse0 world1
              (with_user (recurse_reset recurse0 world1) 0%nat [0%nat])
              eq_refl eq_refl eq_refl eq_refl) as (E & _ & P & C).
  eexists. split; [exact E|]. split; [exact C | exact P].
Defined.

(** A function that always asks to be run again and cancels on its
    third call. *)
Definition cancel_on_third (u : nat) : nat * list user_request :=
  (S u, if (u <? 2)%nat then [Recurse] else [Recurse; Unsubscribe]).

Lemma tail_iteration_ends_at_cancellation_witness :
  ∃ w', schedulable_invoke [make_action (user_function cancel_on_third)] 5
          idle recurse0 world1 = Returned w' ∧
        calls w' = [0; 1; 2]%nat ∧ is_subscribed idle w' = false.
Proof.
  destruct (tail_iteration_ends_at_cancellation
              [make_action (user_function cancel_on_third)] cancel_on_third
              1%nat 2%nat 4%nat idle recurse0 world1 eq_refl eq_refl eq_refl)
    as (w' & E & C & _ & S).
  - split; [reflexivity|]. split; [simpl; lia | simpl; lia].
  - reflexivity.
  - cbn. unfold polite. repeat split; try reflexivity;
      (constructor; [by left | constructor]).
  - lia.
  - exists w'. split; [exact E|]. split; [exact C | exact S].
Defined.

(** A periodic schedule of period 10 started at 0 on [worker0], over
    different works. *)
Definition activity0 : schedulable := (periodic_activity worker0 idle 0 world0).1.
Definition heap_over (work : nat → nat * list user_request) : list (action_type nat) :=
  [make_action (user_function work);
   make_action (periodic_function 0 10 activity0)].
Definition started : world nat :=
  match schedule_periodically worker0 0 10 idle 2 world0 with
  | Returned w => w
  | _ => world0
  end.
Definition tick0 : schedulable :=
  match posted started with
  | e :: _ => sub_what e
  | [] => idle
  end.

Lemma periodic_ends_when_work_cancels_witness :
  ∃ w', dispatch (heap_over (fun u => (S u, [Unsubscribe]))) 3 false tick0 started
          = Returned w' ∧
        posted w' = posted started ∧ times w' !! 0%nat = Some 10.
Proof.
  destruct (periodic_ends_when_work_cancels
              (heap_over (fun u => (S u, [Unsubscribe]))) (fun u => (S u, [Unsubscribe]))
              1%nat 2%nat 0%nat activity0 10 eq_refl eq_refl eq_refl
              0%nat false tick0 started 0 eq_refl eq_refl eq_refl eq_refl
              eq_refl eq_refl)
    as (w' & E & P & _ & T & _).
  exists w'. split; [exact E|]. split; [exact P | exact T].
Defined.

Lemma periodic_ends_when_work_throws_witness :
  ∃ w', dispatch (heap_over (fun u => (S u, [Throw]))) 3 false tick0 started
          = Thrown w' ∧
        posted w' = posted started ∧ is_subscribed tick0 w' = false.
Proof.
  destruct (periodic_ends_when_work_throws
              (heap_over (fun u => (S u, [Throw]))) (fun u => (S u, [Throw]))
              1%nat 2%nat 0%nat activity0 10 eq_refl eq_refl eq_refl
              0%nat false tick0 started 0 eq_refl eq_refl eq_refl eq_refl eq_refl)
    as (w' & E & P & _ & _ & S).
  exists w'. split; [exact E|]. split; [exact P | exact S].
Defined.

Lemma tick_posts_requesting_work_once_witness :
  ∃ na n' w',
    dispatch (heap_over (fun u => (S u, [Recurse]))) 3 false tick0 started
      = Returned w' ∧
    posted w' = posted started ++
      [mk_submission 7%nat None na; mk_submission 7%nat (Some 10) n'].
Proof.
  destruct (tick_posts_requesting_work_once
              (heap_over (fun u => (S u, [Recurse]))) (fun u => (S u, [Recurse]))
              1%nat 2%nat 7%nat 0%nat worker0 activity0 10
              eq_refl eq_refl eq_refl eq_refl eq_refl
              0%nat false tick0 started 0 eq_refl eq_refl eq_refl eq_refl eq_refl
              eq_refl)
    as (na & n' & w' & E & _ & P & _).
  { constructor; [by left | constructor]. }
  exists na, n', w'. split; [exact E | exact P].
Defined.


Lemma destroying_a_copy_deregisters_witness :
  is_subscribed (schedulable_scoped 5%nat worker0 action_empty world0).1
    (worker_unsubscribe worker0
       (schedulable_destroy
          (schedulable_copy (schedulable_scoped 5%nat worker0 action_empty world0).1)
          (schedulable_scoped 5%nat worker0 action_empty world0).2)) = true.
Proof.
  pose proof (destroying_a_copy_deregisters 5%nat worker0 action_empty world0
                eq_refl eq_refl) as H.
  simpl in H. apply H.
  - lia.
  - intros r Hr. by apply elem_of_nil in Hr.
  - intros r Hr. by apply elem_of_nil in Hr.
Defined.

End SchedLaws.
